(** * A shallow embedding of the blackjack rules engine

    The engine is made of five classes: [Card], [Deck], [Shoe], [Hand] and
    [Blackjack].  Each class becomes a module holding a record for the
    object's fields and one function per method.  Mutation is explicit
    state passing; the two pieces of process-wide state the engine touches
    (the [Card._nextId] counter and [Math.random]) together with the
    observable end-of-shoe notifications live in a [World] record that is
    threaded through every method that can reach them. *)

From stdpp Require Import gmap list.
From Stdlib Require Import ZArith.

Local Open Scope nat_scope.

(** ** The world outside the objects *)

(** What the end-of-shoe code path does that an observer can see: either the
    configured callback is invoked, or the default notice (a console line and,
    in a browser, an alert box) is shown. *)
Inductive Notice := HookCalled | DefaultNotice.

(** [nextId] is [Card._nextId]; [rng] is the whole future of [Math.random],
    one natural number per call, of which [draws] have been consumed;
    [notices] is the log of end-of-shoe notifications, oldest first. *)
Record World := mkWorld {
  nextId : nat;
  rng : nat → nat;
  draws : nat;
  notices : list Notice
}.

(** [Math.floor(Math.random() * n)]: some index below [n]. *)
Definition randomBelow (n : nat) (w : World) : nat * World :=
  (rng w (draws w) `mod` n,
   mkWorld (nextId w) (rng w) (S (draws w)) (notices w)).

Definition notify (n : Notice) (w : World) : World :=
  mkWorld (nextId w) (rng w) (draws w) (notices w ++ [n]).

(** ** Card *)

Inductive Suit := Spades | Clubs | Hearts | Diamonds.

Inductive Rank :=
  | Ace | Two | Three | Four | Five | Six | Seven | Eight | Nine | Ten
  | Jack | Queen | King.

Inductive Color := Red | Black.

Global Instance Rank_eq_dec : EqDecision Rank.
Proof. solve_decision. Defined.

Module Card.

Record t := mk {
  suit : Suit;
  rank : Rank;
  color : Color;
  id : nat
}.

(** The constructor body once the id is known. *)
Definition make (s : Suit) (r : Rank) (i : nat) : t :=
  mk s r (match s with Hearts | Diamonds => Red | _ => Black end) i.

(** [new Card(suit, rank)]: takes the next id and advances the counter.
    The counter starts at 1 (see [world0]). *)
Definition new (s : Suit) (r : Rank) (w : World) : t * World :=
  (make s r (nextId w),
   mkWorld (S (nextId w)) (rng w) (draws w) (notices w)).

Definition getValue (c : t) : nat :=
  match rank c with
  | Jack | Queen | King => 10
  | Ace => 11
  | Two => 2 | Three => 3 | Four => 4 | Five => 5 | Six => 6
  | Seven => 7 | Eight => 8 | Nine => 9 | Ten => 10
  end.

End Card.

(** ** Arrays of cards *)

(** [Array.prototype.pop]: the last element and what is left, [None] on an
    empty array (JavaScript gives [undefined] and leaves the array empty). *)
Fixpoint pop {A} (l : list A) : option (list A * A) :=
  match l with
  | [] => None
  | x :: l' =>
      match pop l' with
      | None => Some ([], x)
      | Some (r, y) => Some (x :: r, y)
      end
  end.

(** [[a[i], a[j]] = [a[j], a[i]]].  Both indices are in range wherever the
    engine swaps; outside the range the model leaves the array alone. *)
Definition swap {A} (i j : nat) (l : list A) : list A :=
  match l !! i, l !! j with
  | Some x, Some y => <[j:=x]> (<[i:=y]> l)
  | _, _ => l
  end.

(** [a.splice(i, 0, x)]. *)
Definition splice_in {A} (i : nat) (x : A) (l : list A) : list A :=
  take i l ++ x :: drop i l.

(** ** Deck *)

Module Deck.

Definition suits : list Suit := [Spades; Clubs; Hearts; Diamonds].

Definition ranks : list Rank :=
  [Ace; Two; Three; Four; Five; Six; Seven; Eight; Nine; Ten;
   Jack; Queen; King].

(** The inner loop: one card per rank, pushed in order. *)
Fixpoint pushRanks (s : Suit) (rs : list Rank) (cs : list Card.t) (w : World)
  : list Card.t * World :=
  match rs with
  | [] => (cs, w)
  | r :: rs' =>
      let '(c, w') := Card.new s r w in
      pushRanks s rs' (cs ++ [c]) w'
  end.

(** The outer loop over suits. *)
Fixpoint pushSuits (ss : list Suit) (cs : list Card.t) (w : World)
  : list Card.t * World :=
  match ss with
  | [] => (cs, w)
  | s :: ss' =>
      let '(cs', w') := pushRanks s ranks cs w in
      pushSuits ss' cs' w'
  end.

(** [new Deck()], returning its [cards]. *)
Definition new (w : World) : list Card.t * World :=
  pushSuits suits [] w.

End Deck.

(** ** Hand *)

Module Hand.

(** [originalBet] and [doubled] are not set by the constructor, so they
    start out [undefined] ([None]). *)
Record t := mk {
  cards : list Card.t;
  bet : Z;
  originalBet : option Z;
  hasStood : bool;
  hasSurrendered : bool;
  doubled : option bool;
  isSplit : bool
}.

Definition new : t := mk [] 0%Z None false false None false.

Definition addCard (c : Card.t) (h : t) : t :=
  mk (cards h ++ [c]) (bet h) (originalBet h) (hasStood h)
     (hasSurrendered h) (doubled h) (isSplit h).

(** The [for ... of] loop of [getScore], from a running [score] and
    [aces] count. *)
Fixpoint tally (cs : list Card.t) (score aces : nat) : nat * nat :=
  match cs with
  | [] => (score, aces)
  | c :: cs' =>
      if decide (Card.rank c = Ace)
      then tally cs' (score + 11) (S aces)
      else tally cs' (score + Card.getValue c) aces
  end.

(** [while (score > 21 && aces > 0) { score -= 10; aces--; }] *)
Fixpoint downgrade (aces score : nat) : nat :=
  match aces with
  | 0 => score
  | S aces' => if 21 <? score then downgrade aces' (score - 10) else score
  end.

Definition getScore (h : t) : nat :=
  let '(score, aces) := tally (cards h) 0 0 in
  downgrade aces score.

Definition isBusted (h : t) : bool := 21 <? getScore h.

Definition isBlackjack (h : t) : bool :=
  (length (cards h) =? 2) && (getScore h =? 21).

End Hand.

(** ** Shoe *)

Module Shoe.

(** [onEndOfShoe] records whether the collaborator installed a callback
    ([typeof this.onEndOfShoe === 'function']); the call itself shows up in
    the world's [notices].  [currentRoundDealt] is [None] when it is
    [undefined] or [null], otherwise the set of ids dealt this round. *)
Record t := mk {
  cards : list Card.t;
  discardPile : list Card.t;
  numberOfDecks : nat;
  onEndOfShoe : bool;
  _endAlerted : bool;
  currentRoundDealt : option (gset nat)
}.

Definition setCards (cs : list Card.t) (s : t) : t :=
  mk cs (discardPile s) (numberOfDecks s) (onEndOfShoe s) (_endAlerted s)
     (currentRoundDealt s).

Definition setDiscardPile (ds : list Card.t) (s : t) : t :=
  mk (cards s) ds (numberOfDecks s) (onEndOfShoe s) (_endAlerted s)
     (currentRoundDealt s).

Definition setOnEndOfShoe (b : bool) (s : t) : t :=
  mk (cards s) (discardPile s) (numberOfDecks s) b (_endAlerted s)
     (currentRoundDealt s).

Definition setEndAlerted (b : bool) (s : t) : t :=
  mk (cards s) (discardPile s) (numberOfDecks s) (onEndOfShoe s) b
     (currentRoundDealt s).

Definition setCurrentRoundDealt (d : option (gset nat)) (s : t) : t :=
  mk (cards s) (discardPile s) (numberOfDecks s) (onEndOfShoe s)
     (_endAlerted s) d.

Definition startRound (s : t) : t := setCurrentRoundDealt (Some ∅) s.

Definition endRound (s : t) : t := setCurrentRoundDealt None s.

(** The Fisher-Yates loop, entered with index [i] and running down to 1. *)
Fixpoint shuffleFrom (i : nat) (cs : list Card.t) (w : World)
  : list Card.t * World :=
  match i with
  | 0 => (cs, w)
  | S i' =>
      let '(j, w') := randomBelow (i + 1) w in
      shuffleFrom i' (swap i j cs) w'
  end.

Definition shuffle (s : t) (w : World) : t * World :=
  let '(cs, w') := shuffleFrom (length (cards s) - 1) (cards s) w in
  (setCards cs s, w').

(** The loop of [initializeShoe]: [n] more decks appended to [cs]. *)
Fixpoint pushDecks (n : nat) (cs : list Card.t) (w : World)
  : list Card.t * World :=
  match n with
  | 0 => (cs, w)
  | S n' =>
      let '(deck, w') := Deck.new w in
      pushDecks n' (cs ++ deck) w'
  end.

Definition initializeShoe (s : t) (w : World) : t * World :=
  let '(cs, w1) := pushDecks (numberOfDecks s) [] w in
  let '(s2, w2) := shuffle (setCards cs s) w1 in
  (setEndAlerted false s2, w2).

(** [new Shoe(numberOfDecks)] *)
Definition new (n : nat) (w : World) : t * World :=
  initializeShoe (mk [] [] n false false None) w.

(** The search loop of [deal], with [fuel = maxAttempts - attempts]
    iterations left.  [Some card] is a [return card] from inside the loop,
    [None] is leaving the loop through its condition. *)
Fixpoint search (fuel : nat) (s : t) : option Card.t * t :=
  match fuel with
  | 0 => (None, s)
  | S fuel' =>
      match pop (cards s) with
      | None => (None, s)
      | Some (rest, card) =>
          let s1 := setCards rest s in
          match currentRoundDealt s1 with
          | None => (Some card, s1)
          | Some dealt =>
              if decide (Card.id card ∈ dealt)
              then search fuel' (setDiscardPile (discardPile s1 ++ [card]) s1)
              else (Some card,
                    setCurrentRoundDealt (Some ({[Card.id card]} ∪ dealt)) s1)
          end
      end
  end.

(** [this.cards = [...this.discardPile]; this.discardPile = []; this.shuffle()] *)
Definition recycle (s : t) (w : World) : t * World :=
  shuffle (setDiscardPile [] (setCards (discardPile s) s)) w.

(** The end-of-shoe block at the bottom of [deal]. *)
Definition alertEndOfShoe (initialAvailable : nat) (s : t) (w : World)
  : t * World :=
  if (initialAvailable =? 1) && negb (_endAlerted s)
  then (setEndAlerted true s,
        notify (if onEndOfShoe s then HookCalled else DefaultNotice) w)
  else (s, w).

(** [deal()].  The result is [None] when JavaScript returns [undefined]. *)
Definition deal (s : t) (w : World) : option Card.t * t * World :=
  let '(s1, w1) :=
    if length (cards s) =? 0
    then (if length (discardPile s) =? 0
          then initializeShoe s w
          else recycle s w)
    else (s, w) in
  let maxAttempts := Nat.max 10 (length (cards s1) + 5) in
  let initialAvailable := length (cards s1) in
  match search maxAttempts s1 with
  | (Some card, s2) => (Some card, s2, w1)
  | (None, s2) =>
      let '(s3, w3) :=
        if length (cards s2) =? 0
        then (if 0 <? length (discardPile s2)
              then recycle s2 w1
              else initializeShoe s2 w1)
        else (s2, w1) in
      let '(fallback, s4) :=
        match pop (cards s3) with
        | None => (None, s3)
        | Some (rest, card) => (Some card, setCards rest s3)
        end in
      let s5 :=
        match currentRoundDealt s4, fallback with
        | Some dealt, Some card =>
            setCurrentRoundDealt (Some ({[Card.id card]} ∪ dealt)) s4
        | _, _ => s4
        end in
      let '(s6, w6) := alertEndOfShoe initialAvailable s5 w3 in
      (fallback, s6, w6)
  end.

(** The argument of [addToDiscardPile]: one card or an array of cards. *)
Inductive Discarded := OneCard (c : Card.t) | CardArray (cs : list Card.t).

Definition addToDiscardPile (x : Discarded) (s : t) : t :=
  match x with
  | CardArray cs => setDiscardPile (discardPile s ++ cs) s
  | OneCard c => setDiscardPile (discardPile s ++ [c]) s
  end.

(** [n] calls of [deal()] in a row; the results in call order. *)
Fixpoint dealMany (n : nat) (s : t) (w : World)
  : list (option Card.t) * t * World :=
  match n with
  | 0 => ([], s, w)
  | S n' =>
      let '(r, s1, w1) := deal s w in
      let '(rs, s2, w2) := dealMany n' s1 w1 in
      (r :: rs, s2, w2)
  end.

End Shoe.

(** ** Blackjack, the game controller *)

(** The errors a controller method can raise: the four [throw new Error(...)]
    statements of [surrender], [double] and [split], and the [TypeError] the
    runtime raises on a property access through [undefined]. *)
Inductive Error :=
  | SurrenderNotAllowed   (* "Surrender is not allowed in current game settings" *)
  | SurrenderInitialOnly  (* "Can only surrender on initial hand" *)
  | DoubleInitialOnly     (* "Can only double down on initial hand" *)
  | SplitIdenticalOnly    (* "Can only split identical value cards" *)
  | TypeError.

Inductive Outcome (A : Type) :=
  | Return (a : A)
  | Throw (e : Error).
Arguments Return {A} a.
Arguments Throw {A} e.

(** [a || b] on numbers where [a] may be [undefined]: [b] when [a] is
    [undefined] or zero. *)
Definition numberOr (a : option Z) (b : Z) : Z :=
  match a with
  | Some x => if (x =? 0)%Z then b else x
  | None => b
  end.

(** [!a] on such a value. *)
Definition falsy (a : option Z) : bool :=
  match a with
  | Some x => (x =? 0)%Z
  | None => true
  end.

Module Blackjack.

Record t := mk {
  shoe : Shoe.t;
  standOnSoft17 : bool;
  allowSurrender : bool;
  dealerHand : Hand.t;
  playerHands : list Hand.t;
  currentHandIndex : nat;
  numberOfDecks : nat;
  chips : Z
}.

Definition setShoe (s : Shoe.t) (g : t) : t :=
  mk s (standOnSoft17 g) (allowSurrender g) (dealerHand g) (playerHands g)
     (currentHandIndex g) (numberOfDecks g) (chips g).

Definition setDealerHand (h : Hand.t) (g : t) : t :=
  mk (shoe g) (standOnSoft17 g) (allowSurrender g) h (playerHands g)
     (currentHandIndex g) (numberOfDecks g) (chips g).

Definition setPlayerHands (hs : list Hand.t) (g : t) : t :=
  mk (shoe g) (standOnSoft17 g) (allowSurrender g) (dealerHand g) hs
     (currentHandIndex g) (numberOfDecks g) (chips g).

Definition setCurrentHandIndex (i : nat) (g : t) : t :=
  mk (shoe g) (standOnSoft17 g) (allowSurrender g) (dealerHand g)
     (playerHands g) i (numberOfDecks g) (chips g).

(** Controller methods run on the controller and the world, and either
    return or throw; the state reached is kept in both cases. *)
Definition M (A : Type) : Type := t → World → Outcome A * t * World.

Definition ret {A} (a : A) : M A := λ g w, (Return a, g, w).

Definition throw {A} (e : Error) : M A := λ g w, (Throw e, g, w).

Global Instance M_ret : MRet M := @ret.

Global Instance M_bind : MBind M :=
  λ A B f m g w,
    match m g w with
    | (Return a, g', w') => f a g' w'
    | (Throw e, g', w') => (Throw e, g', w')
    end.

Definition modify (f : t → t) : M unit := λ g w, (Return tt, f g, w).

(** Reading a field of [this]. *)
Definition this : M t := λ g w, (Return g, g, w).

(** A member access on [this.playerHands[handIndex]]: a [TypeError] when
    the index names no hand. *)
Definition theHand (handIndex : nat) : M Hand.t :=
  λ g w,
    match playerHands g !! handIndex with
    | Some h => (Return h, g, w)
    | None => (Throw TypeError, g, w)
    end.

(** Writing back the hand object held at [handIndex]. *)
Definition putHand (handIndex : nat) (h : Hand.t) : M unit :=
  modify (λ g, setPlayerHands (<[handIndex:=h]> (playerHands g)) g).

(** [this.shoe.deal()] followed by a use of the card.  A shoe built from at
    least one deck always yields a card.  With zero decks [deal] yields
    [undefined]; JavaScript stores it in the hand and raises a [TypeError]
    at the next score computation over that hand, whereas the model, whose
    hands hold cards only, raises the [TypeError] right away. *)
Definition dealCard : M Card.t :=
  λ g w,
    match Shoe.deal (shoe g) w with
    | (Some c, s, w') => (Return c, setShoe s g, w')
    | (None, s, w') => (Throw TypeError, setShoe s g, w')
    end.

(** [new Blackjack(numberOfDecks, standOnSoft17, allowSurrender, startingChips)] *)
Definition new (n : nat) (s17 surrenderOk : bool) (startingChips : Z)
    (w : World) : t * World :=
  let '(s, w') := Shoe.new n w in
  (mk s s17 surrenderOk Hand.new [Hand.new] 0 n startingChips, w').

Definition endHand (handIndex : nat) : M unit :=
  λ g w,
    if handIndex <? length (playerHands g) - 1
    then (Return tt, setCurrentHandIndex (handIndex + 1) g, w)
    else (Return tt, g, w).

Definition dealInitialCards : M unit :=
  modify (λ g, setShoe (Shoe.startRound (shoe g)) g);;
  modify (λ g, setCurrentHandIndex 0
                 (setPlayerHands [Hand.new] (setDealerHand Hand.new g)));;
  c1 ← dealCard;
  h ← theHand 0; putHand 0 (Hand.addCard c1 h);;
  c2 ← dealCard;
  modify (λ g, setDealerHand (Hand.addCard c2 (dealerHand g)) g);;
  c3 ← dealCard;
  h ← theHand 0; putHand 0 (Hand.addCard c3 h);;
  c4 ← dealCard;
  modify (λ g, setDealerHand (Hand.addCard c4 (dealerHand g)) g).

Definition placeBet (amount : Z) : M unit :=
  h ← theHand 0;
  putHand 0 (Hand.mk (Hand.cards h) amount (Some amount) (Hand.hasStood h)
               (Hand.hasSurrendered h) (Some false) (Hand.isSplit h)).

(** [hit]: the card is drawn before the hand object is touched. *)
Definition hit (handIndex : nat) : M Card.t :=
  card ← dealCard;
  hand ← theHand handIndex;
  putHand handIndex (Hand.addCard card hand);;
  (if Hand.isBusted (Hand.addCard card hand)
   then endHand handIndex
   else ret tt);;
  ret card.

Definition stand (handIndex : nat) : M unit :=
  hand ← theHand handIndex;
  putHand handIndex
    (Hand.mk (Hand.cards hand) (Hand.bet hand) (Hand.originalBet hand) true
       (Hand.hasSurrendered hand) (Hand.doubled hand) (Hand.isSplit hand));;
  endHand handIndex.

Definition surrender (handIndex : nat) : M unit :=
  g ← this;
  if negb (allowSurrender g) then throw SurrenderNotAllowed else
  hand ← theHand handIndex;
  if 2 <? length (Hand.cards hand) then throw SurrenderInitialOnly else
  putHand handIndex
    (Hand.mk (Hand.cards hand) (Hand.bet hand) (Hand.originalBet hand)
       (Hand.hasStood hand) true (Hand.doubled hand) (Hand.isSplit hand));;
  endHand handIndex.

Definition double (handIndex : nat) : M unit :=
  hand ← theHand handIndex;
  if negb (length (Hand.cards hand) =? 2) then throw DoubleInitialOnly else
  let originalBet' :=
    if falsy (Hand.originalBet hand)
    then Some (numberOr (Some (Hand.bet hand)) 0)
    else Hand.originalBet hand in
  putHand handIndex
    (Hand.mk (Hand.cards hand) (Hand.bet hand * 2)%Z originalBet'
       (Hand.hasStood hand) (Hand.hasSurrendered hand) (Some true)
       (Hand.isSplit hand));;
  hit handIndex;;
  hand' ← theHand handIndex;
  if negb (Hand.isBusted hand') then stand handIndex else ret tt.

(** [split]: the guard [cards.length !== 2 || cards[0].getValue() !==
    cards[1].getValue()] is the match on a two-element array followed by
    the comparison of the two values. *)
Definition split (handIndex : nat) : M unit :=
  hand ← theHand handIndex;
  match Hand.cards hand with
  | [first; second] =>
      if negb (Card.getValue first =? Card.getValue second)
      then throw SplitIdenticalOnly
      else
        (* the source hand is marked and loses its second card *)
        putHand handIndex
          (Hand.mk [first] (Hand.bet hand) (Hand.originalBet hand)
             (Hand.hasStood hand) (Hand.hasSurrendered hand)
             (Hand.doubled hand) true);;
        let newHand :=
          Hand.mk [second] (Hand.bet hand)
            (Some (numberOr (Hand.originalBet hand) (Hand.bet hand)))
            false false (Some false) true in
        c1 ← dealCard;
        let newHand' := Hand.addCard c1 newHand in
        c2 ← dealCard;
        h ← theHand handIndex;
        putHand handIndex (Hand.addCard c2 h);;
        modify (λ g, setPlayerHands
                       (splice_in (handIndex + 1) newHand' (playerHands g)) g)
  | _ => throw SplitIdenticalOnly
  end.

Definition dealerPlay : M Card.t :=
  card ← dealCard;
  modify (λ g, setDealerHand (Hand.addCard card (dealerHand g)) g);;
  ret card.

(** The loop of [shouldDealerHit] over the dealer's cards, from running
    [hardScore] and [aces]. *)
Fixpoint softness (cs : list Card.t) (hardScore aces : nat) : nat * nat :=
  match cs with
  | [] => (hardScore, aces)
  | c :: cs' =>
      if decide (Card.rank c = Ace)
      then softness cs' hardScore (S aces)
      else softness cs' (hardScore + Card.getValue c) aces
  end.

Definition shouldDealerHit (g : t) : bool :=
  let score := Hand.getScore (dealerHand g) in
  if score <? 17 then true
  else if score =? 17 then
    let '(hardScore, aces) := softness (Hand.cards (dealerHand g)) 0 0 in
    let isSoft17 := (0 <? aces) && (hardScore <=? 6) in
    isSoft17 && negb (standOnSoft17 g)
  else false.

(** The [for ... of] loop of [settleAllHands]. *)
Fixpoint discardHands (hs : list Hand.t) (s : Shoe.t) : Shoe.t :=
  match hs with
  | [] => s
  | h :: hs' =>
      discardHands hs' (Shoe.addToDiscardPile (Shoe.CardArray (Hand.cards h)) s)
  end.

Definition settleAllHands : M unit :=
  modify (λ g,
    let s1 := Shoe.addToDiscardPile
                (Shoe.CardArray (Hand.cards (dealerHand g))) (shoe g) in
    let s2 := discardHands (playerHands g) s1 in
    let s3 := Shoe.endRound s2 in
    setCurrentHandIndex 0
      (setPlayerHands [Hand.new] (setDealerHand Hand.new (setShoe s3 g)))).

(** *** Driving the controller

    The operations through which cards move between the shoe, the discard
    pile and the hands.  A dealt card always lands in a hand: the dealer's
    through [dealerPlay], the current player hand's through [hit]. *)
Inductive Op :=
  | StartRound
  | EndRound
  | Hit
  | DealerPlay
  | SettleAllHands
  | AddToDiscardPile (x : Shoe.Discarded).

(** One operation; an exception is caught by the driver and play goes on
    from the state the exception left. *)
Definition step (op : Op) (st : t * World) : t * World :=
  let '(g, w) := st in
  match op with
  | StartRound => (setShoe (Shoe.startRound (shoe g)) g, w)
  | EndRound => (setShoe (Shoe.endRound (shoe g)) g, w)
  | Hit => let '(_, g', w') := hit (currentHandIndex g) g w in (g', w')
  | DealerPlay => let '(_, g', w') := dealerPlay g w in (g', w')
  | SettleAllHands => let '(_, g', w') := settleAllHands g w in (g', w')
  | AddToDiscardPile x => (setShoe (Shoe.addToDiscardPile x (shoe g)) g, w)
  end.

Definition run (ops : list Op) (st : t * World) : t * World :=
  foldl (λ st op, step op st) st ops.

(** [AddToDiscardPile] called from outside [settleAllHands]. *)
Definition rawDiscard (op : Op) : bool :=
  match op with AddToDiscardPile _ => true | _ => false end.

(** Does [op] draw from a shoe whose cards and discard pile are both
    empty, so that [deal] rebuilds the shoe from fresh decks? *)
Definition rebuildsShoe (op : Op) (g : t) : bool :=
  match op with
  | Hit | DealerPlay =>
      (length (Shoe.cards (shoe g)) =? 0)
      && (length (Shoe.discardPile (shoe g)) =? 0)
  | _ => false
  end.

(** How many operations of a run rebuild the shoe. *)
Fixpoint rebuilds (ops : list Op) (st : t * World) : nat :=
  match ops with
  | [] => 0
  | op :: ops' =>
      (if rebuildsShoe op st.1 then 1 else 0) + rebuilds ops' (step op st)
  end.

(** The cards held by the dealer hand and all player hands. *)
Definition held (g : t) : list Card.t :=
  Hand.cards (dealerHand g) ++ concat (Hand.cards <$> playerHands g).

(** The three pools together: shoe, discard pile, hands. *)
Definition pool (g : t) : list Card.t :=
  Shoe.cards (shoe g) ++ Shoe.discardPile (shoe g) ++ held g.

End Blackjack.

(** ** Concrete inputs *)

(** A fresh process: the id counter starts at 1, nothing has been logged, and
    [Math.random] happens to return a number below [1/53] every time. *)
Definition world0 : World := mkWorld 1 (λ _, 0) 0 [].

(** A hand holding the given cards, otherwise as constructed. *)
Definition handOf (cs : list Card.t) : Hand.t :=
  Hand.mk cs 0%Z None false false None false.

(** A controller whose dealer hand is [h]. *)
Definition dealerHolding (h : Hand.t) (s17 : bool) : Blackjack.t :=
  Blackjack.mk (Shoe.mk [] [] 1 false false None) s17 true h [Hand.new] 0 1
    1000%Z.

(** A one-deck controller in mid-shoe, with the given player hands: three
    cards are left in the shoe, the King on top. *)
Definition tableWith (hs : list Hand.t) (surrenderOk : bool) : Blackjack.t :=
  Blackjack.mk
    (Shoe.mk [Card.make Hearts Two 40; Card.make Clubs Five 41;
              Card.make Diamonds King 42] [] 1 false false (Some ∅))
    true surrenderOk Hand.new hs 0 1 1000%Z.

(** ** The scoring rule in the words of the specification *)

Module ScoringRule.

(** The sum of the card values, every Ace counted as 11. *)
Definition total (cs : list Card.t) : nat :=
  sum_list (Card.getValue <$> cs).

(** The number of Aces. *)
Definition aceCount (cs : list Card.t) : nat :=
  length (filter (λ c, Card.rank c = Ace) cs).

(** The sum of the values of the cards that are not Aces. *)
Definition nonAceTotal (cs : list Card.t) : nat :=
  sum_list (Card.getValue <$> filter (λ c, Card.rank c ≠ Ace) cs).

(** A hand is soft when it contains at least one Ace and its other cards
    sum to at most 6. *)
Definition isSoft (h : Hand.t) : Prop :=
  (∃ c, c ∈ Hand.cards h ∧ Card.rank c = Ace) ∧ nonAceTotal (Hand.cards h) ≤ 6.

(** The two cards of a hand have the same blackjack value. *)
Definition isPair (h : Hand.t) : Prop :=
  ∃ a b, Hand.cards h = [a; b] ∧ Card.getValue a = Card.getValue b.

End ScoringRule.

(** ** Vocabulary of the proofs *)

(** What a shoe method leaves alone in the world: the id counter and the
    notification log. *)
Definition quiet (w w' : World) : Prop :=
  nextId w' = nextId w ∧ notices w' = notices w.

(** What [search] leaves alone. *)
Definition sameSettings (s s' : Shoe.t) : Prop :=
  Shoe.numberOfDecks s' = Shoe.numberOfDecks s
  ∧ Shoe.onEndOfShoe s' = Shoe.onEndOfShoe s
  ∧ Shoe._endAlerted s' = Shoe._endAlerted s.

(** The first lines of [deal]: an empty [cards] is refilled, from the
    discard pile if it has cards and from fresh decks otherwise. *)
Definition refill (s : Shoe.t) (w : World) : Shoe.t * World :=
  if length (Shoe.cards s) =? 0
  then (if length (Shoe.discardPile s) =? 0
        then Shoe.initializeShoe s w
        else Shoe.recycle s w)
  else (s, w).

(** Both [cards] and the discard pile are empty. *)
Definition exhausted (s : Shoe.t) : bool :=
  (length (Shoe.cards s) =? 0) && (length (Shoe.discardPile s) =? 0).

(** The hand index after [endHand]. *)
Definition nextHand (i : nat) (g : Blackjack.t) : nat :=
  if i <? length (Blackjack.playerHands g) - 1
  then i + 1
  else Blackjack.currentHandIndex g.

(** The hand [double] leaves behind when it goes through with card [c]. *)
Definition doubledHand (hand : Hand.t) (c : Card.t) : Hand.t :=
  Hand.mk (Hand.cards hand ++ [c]) (Hand.bet hand * 2)%Z
    (if falsy (Hand.originalBet hand)
     then Some (Hand.bet hand)
     else Hand.originalBet hand)
    (if Hand.isBusted (Hand.addCard c hand) then Hand.hasStood hand else true)
    (Hand.hasSurrendered hand) (Some true) (Hand.isSplit hand).

(** On a table of [D] decks built when the id counter was at [base]: after
    [k] builds of the shoe, the pools hold exactly the [52 * D * k] cards
    created since the table was built. *)
Definition conserved (D base k : nat) (st : Blackjack.t * World) : Prop :=
  Card.id <$> Blackjack.pool st.1 ≡ₚ seq base (52 * D * k)
  ∧ nextId st.2 = base + 52 * D * k
  ∧ Shoe.numberOfDecks (Blackjack.shoe st.1) = D
  ∧ Blackjack.currentHandIndex st.1 < length (Blackjack.playerHands st.1).

(** ** The controller as its driver sees it *)

Global Instance Suit_eq_dec : EqDecision Suit.
Proof. solve_decision. Defined.

(** The total of a hand with every Ace counted as 1. *)
Definition hardTotal (cs : list Card.t) : nat :=
  ScoringRule.total cs - 10 * ScoringRule.aceCount cs.

(** How many cards of [cs] show suit [s] and rank [r]. *)
Definition copies (s : Suit) (r : Rank) (cs : list Card.t) : nat :=
  length (filter (λ c, Card.suit c = s ∧ Card.rank c = r) cs).

(** When, dealing from a non-empty [cards] with [c] on top, the end-of-shoe
    notification fires. *)
Definition fires (s : Shoe.t) (c : Card.t) : bool :=
  (length (Shoe.cards s) =? 1)
  && negb (Shoe._endAlerted s)
  && match Shoe.currentRoundDealt s with
     | Some dealt => bool_decide (Card.id c ∈ dealt)
     | None => false
     end.

Module Table.

(** A call of a controller method.  A hand index of [None] stands for the
    default argument, [this.currentHandIndex]. *)
Inductive Action :=
  | DealInitialCards
  | PlaceBet (amount : Z)
  | Hit (handIndex : option nat)
  | Stand (handIndex : option nat)
  | Surrender (handIndex : option nat)
  | Double (handIndex : option nat)
  | Split (handIndex : option nat)
  | DealerPlay
  | SettleAllHands.

Definition indexOf (handIndex : option nat) (g : Blackjack.t) : nat :=
  match handIndex with
  | Some i => i
  | None => Blackjack.currentHandIndex g
  end.

(** The state a call leaves, whether it returned or threw. *)
Definition after {A} (r : Outcome A * Blackjack.t * World)
  : Blackjack.t * World :=
  let '(_, g, w) := r in (g, w).

Definition perform (a : Action) (st : Blackjack.t * World)
  : Blackjack.t * World :=
  let '(g, w) := st in
  match a with
  | DealInitialCards => after (Blackjack.dealInitialCards g w)
  | PlaceBet amount => after (Blackjack.placeBet amount g w)
  | Hit i => after (Blackjack.hit (indexOf i g) g w)
  | Stand i => after (Blackjack.stand (indexOf i g) g w)
  | Surrender i => after (Blackjack.surrender (indexOf i g) g w)
  | Double i => after (Blackjack.double (indexOf i g) g w)
  | Split i => after (Blackjack.split (indexOf i g) g w)
  | DealerPlay => after (Blackjack.dealerPlay g w)
  | SettleAllHands => after (Blackjack.settleAllHands g w)
  end.

Definition play (acts : list Action) (st : Blackjack.t * World)
  : Blackjack.t * World :=
  foldl (λ st a, perform a st) st acts.

(** The two ways a call can take cards out of circulation: [hit] on an index
    that names no hand draws the card before it fails, and
    [dealInitialCards] replaces the hands without discarding what they
    hold.  [careful a g] says that [a] is neither. *)
Definition careful (a : Action) (g : Blackjack.t) : bool :=
  match a with
  | Hit (Some i) => i <? length (Blackjack.playerHands g)
  | DealInitialCards => length (Blackjack.held g) =? 0
  | _ => true
  end.

Fixpoint allCareful (acts : list Action) (st : Blackjack.t * World) : bool :=
  match acts with
  | [] => true
  | a :: acts' => careful a st.1 && allCareful acts' (perform a st)
  end.

End Table.

(** The current hand index names a hand on the table. *)
Definition validTable (g : Blackjack.t) : Prop :=
  Blackjack.currentHandIndex g < length (Blackjack.playerHands g).

(** A controller method that keeps a property of the controller, whether it
    returns or throws. *)
Definition keeps {A} (P : Blackjack.t → Prop) (m : Blackjack.M A) : Prop :=
  ∀ g w, P g → P (m g w).1.2.

(** On a table of [D] decks built when the id counter was at [base]: the
    pools hold exactly the cards created since the table was built. *)
Definition accounted (D base : nat) (st : Blackjack.t * World) : Prop :=
  ∃ k, conserved D base k st.

(** A hand carries the stake [a]: its original bet is [a], and its bet is
    [a], or twice [a] once it has been doubled, which leaves it with three
    cards or more. *)
Definition stakeOf (a : Z) (h : Hand.t) : Prop :=
  Hand.originalBet h = Some a
  ∧ ((Hand.bet h = a ∧ Hand.doubled h ≠ Some true)
     ∨ (Hand.bet h = (a * 2)%Z ∧ Hand.doubled h = Some true
        ∧ 3 ≤ length (Hand.cards h))).

(** A table of at least one deck all of whose hands carry the stake. *)
Definition staked (a : Z) (g : Blackjack.t) : Prop :=
  1 ≤ Shoe.numberOfDecks (Blackjack.shoe g)
  ∧ Forall (stakeOf a) (Blackjack.playerHands g).

(** A controller method started where [P] holds ends where [Q] holds of its
    result if it returns, and where [E] holds if it throws. *)
Definition hoare {A} (E P : Blackjack.t → Prop) (m : Blackjack.M A)
    (Q : A → Blackjack.t → Prop) : Prop :=
  ∀ g w, P g →
    match m g w with
    | (Return x, g', _) => Q x g'
    | (Throw _, g', _) => E g'
    end.

(** The calls that play a hand, as opposed to those that set a round up or
    clear it. *)
Definition playsHand (a : Table.Action) : bool :=
  match a with
  | Table.Hit _ | Table.Stand _ | Table.Surrender _ | Table.Double _
  | Table.Split _ | Table.DealerPlay => true
  | _ => false
  end.

(** ** The decisions of the table's driver *)

Module UI.

(** The label [determineGameOutcome] passes on to [handleGameEnd]. *)
Inductive Result := Busted | Win | BlackjackWin | Lose | Push.

(** [determineGameOutcome], up to the label it settles on. *)
Definition determineGameOutcome : Blackjack.M Result :=
  g ← Blackjack.this;
  playerHand ← Blackjack.theHand (Blackjack.currentHandIndex g);
  let dealerScore := Hand.getScore (Blackjack.dealerHand g) in
  let playerScore := Hand.getScore playerHand in
  if Hand.isBusted playerHand then Blackjack.ret Busted
  else if Hand.isBusted (Blackjack.dealerHand g) then Blackjack.ret Win
  else if Hand.isBlackjack playerHand
          && negb (Hand.isBlackjack (Blackjack.dealerHand g))
  then Blackjack.ret BlackjackWin
  else if Hand.isBlackjack (Blackjack.dealerHand g)
          && negb (Hand.isBlackjack playerHand)
  then Blackjack.ret Lose
  else if dealerScore <? playerScore then Blackjack.ret Win
  else if playerScore <? dealerScore then Blackjack.ret Lose
  else Blackjack.ret Push.

(** How a dealer turn can stand after a number of steps. *)
Inductive DealerTurn :=
  | Decided (r : Outcome Result) (g : Blackjack.t) (w : World)
  | Aborted (e : Error) (g : Blackjack.t) (w : World)
  | StillDrawing (g : Blackjack.t) (w : World).

(** [executeDealerPlay], each timer tick being one unit of [fuel]: the
    dealer draws while [shouldDealerHit] says so, then the outcome is
    determined.  An exception out of [dealerPlay] is not caught and ends the
    chain of ticks. *)
Fixpoint executeDealerPlay (fuel : nat) (g : Blackjack.t) (w : World)
  : DealerTurn :=
  if Blackjack.shouldDealerHit g then
    match fuel with
    | 0 => StillDrawing g w
    | S fuel' =>
        match Blackjack.dealerPlay g w with
        | (Return _, g', w') => executeDealerPlay fuel' g' w'
        | (Throw e, g', w') => Aborted e g' w'
        end
    end
  else
    let '(r, g', w') := determineGameOutcome g w in Decided r g' w'.

(** The five arguments [computeAndUpdateControls] hands to
    [updateControls]. *)
Record Controls := mkControls {
  canHit : bool;
  canStand : bool;
  canDouble : bool;
  canSurrender : bool;
  canSplit : bool
}.

Definition computeControls (g : Blackjack.t) : Controls :=
  match Blackjack.playerHands g !! Blackjack.currentHandIndex g with
  | None => mkControls false false false false false
  | Some hand =>
      mkControls
        (negb (Hand.hasStood hand) && negb (Hand.isBusted hand))
        (negb (Hand.hasStood hand))
        ((length (Hand.cards hand) =? 2)
         && negb (Hand.isSplit hand)
         && (numberOr
               (Some (numberOr (Hand.originalBet hand) (Hand.bet hand))) 0
             <=? Blackjack.chips g)%Z)
        (Blackjack.allowSurrender g
         && (length (Hand.cards hand) =? 2)
         && negb (Hand.isSplit hand))
        (match Hand.cards hand with
         | [first; second] =>
             (Card.getValue first =? Card.getValue second)
             && (numberOr (Some (Hand.bet hand)) 0 <=? Blackjack.chips g)%Z
         | _ => false
         end)
  end.




(** What the handlers below do to the controller before the first timer
    fires; rendering is left out. *)




End UI.

(** The bets on the table, and the player's money: chips in hand plus the
    bets on the table. *)
Definition betSum (hs : list Hand.t) : Z :=
  foldr (λ h acc, (Hand.bet h + acc)%Z) 0%Z hs.


(** * Properties *)

(** ** Scoring *)

Section Scoring.

Import ScoringRule.

Lemma getValue_Ace c : Card.rank c = Ace → Card.getValue c = 11.
Proof. unfold Card.getValue. by intros ->. Qed.

Lemma total_cons c cs : total (c :: cs) = Card.getValue c + total cs.
Proof. reflexivity. Qed.

Lemma aceCount_cons c cs :
  aceCount (c :: cs) = (if decide (Card.rank c = Ace) then 1 else 0) + aceCount cs.
Proof.
  unfold aceCount. case_decide.
  - by rewrite filter_cons_True.
  - by rewrite filter_cons_False.
Qed.

Lemma nonAceTotal_cons c cs :
  nonAceTotal (c :: cs)
  = (if decide (Card.rank c = Ace) then 0 else Card.getValue c) + nonAceTotal cs.
Proof.
  unfold nonAceTotal. case_decide.
  - rewrite filter_cons_False; [done | by intros []].
  - by rewrite filter_cons_True.
Qed.

Lemma tally_total cs : ∀ score aces,
  Hand.tally cs score aces = (score + total cs, aces + aceCount cs).
Proof.
  induction cs as [|c cs IH]; intros score aces; simpl.
  - unfold total, aceCount; simpl. f_equal; lia.
  - rewrite aceCount_cons, total_cons.
    case_decide as Hc; rewrite IH.
    + rewrite (getValue_Ace _ Hc). f_equal; lia.
    + f_equal; lia.
Qed.

Lemma softness_total cs : ∀ hard aces,
  Blackjack.softness cs hard aces = (hard + nonAceTotal cs, aces + aceCount cs).
Proof.
  induction cs as [|c cs IH]; intros hard aces; simpl.
  - unfold nonAceTotal, aceCount; simpl. f_equal; lia.
  - rewrite aceCount_cons, nonAceTotal_cons.
    case_decide; rewrite IH; f_equal; lia.
Qed.

Lemma aceCount_pos cs :
  0 < aceCount cs ↔ ∃ c, c ∈ cs ∧ Card.rank c = Ace.
Proof.
  unfold aceCount. split.
  - intros Hlen. destruct (filter _ cs) as [|c l] eqn:Hf; simpl in Hlen; [lia|].
    exists c.
    assert (c ∈ filter (λ c, Card.rank c = Ace) cs) as Hm
      by (rewrite Hf; left).
    apply list_elem_of_filter in Hm. tauto.
  - intros (c & Hin & Hc).
    assert (c ∈ filter (λ c, Card.rank c = Ace) cs) as Hm
      by (by apply list_elem_of_filter).
    destruct (filter _ cs); [by apply elem_of_nil in Hm | simpl; lia].
Qed.

(** What the downgrade loop computes: the least number [k] of Aces counted
    as 1 that brings the score to 21 or below, or all of them. *)
Lemma downgrade_least aces : ∀ score,
  ∃ k, k ≤ aces
    ∧ 10 * k ≤ score
    ∧ Hand.downgrade aces score = score - 10 * k
    ∧ (score - 10 * k ≤ 21 ∨ k = aces)
    ∧ ∀ j, j < k → 21 < score - 10 * j.
Proof.
  induction aces as [|aces IH]; intros score; simpl.
  - exists 0. repeat split; lia.
  - destruct (21 <? score) eqn:Hgt.
    + apply Nat.ltb_lt in Hgt.
      destruct (IH (score - 10)) as (k & Hk & Hle & Heq & Hstop & Hmin).
      exists (S k). repeat split; try lia.
      intros [|j] Hj; [lia|].
      specialize (Hmin j). lia.
    + apply Nat.ltb_ge in Hgt.
      exists 0. repeat split; try lia.
Qed.

Lemma getScore_unfold h :
  Hand.getScore h
  = Hand.downgrade (aceCount (Hand.cards h)) (total (Hand.cards h)).
Proof. unfold Hand.getScore. by rewrite tally_total. Qed.

(** C5. [getScore] is the sum of the card values with every Ace counted as
    11, lowered by 10 once per Ace for as long as the total exceeds 21 and
    an Ace not yet lowered remains: the number [k] of lowered Aces is the
    least one that brings the total to 21 or below, or all the Aces.
    A,A scores 12; A,K scores 21; A,A,9 scores 21; 7,7,7 scores 21. *)
Theorem getScore_soft_hard_reduction :
  (∀ h : Hand.t,
    ∃ k, k ≤ aceCount (Hand.cards h)
      ∧ 10 * k ≤ total (Hand.cards h)
      ∧ Hand.getScore h = total (Hand.cards h) - 10 * k
      ∧ (Hand.getScore h ≤ 21 ∨ k = aceCount (Hand.cards h))
      ∧ ∀ j, j < k → 21 < total (Hand.cards h) - 10 * j)
  ∧ (∀ s1 s2 i1 i2,
      Hand.getScore (handOf [Card.make s1 Ace i1; Card.make s2 Ace i2]) = 12)
  ∧ (∀ s1 s2 i1 i2,
      Hand.getScore (handOf [Card.make s1 Ace i1; Card.make s2 King i2]) = 21)
  ∧ (∀ s1 s2 s3 i1 i2 i3,
      Hand.getScore
        (handOf [Card.make s1 Ace i1; Card.make s2 Ace i2; Card.make s3 Nine i3])
      = 21)
  ∧ (∀ s1 s2 s3 i1 i2 i3,
      Hand.getScore
        (handOf [Card.make s1 Seven i1; Card.make s2 Seven i2;
                 Card.make s3 Seven i3])
      = 21).
Proof.
  split; [|by repeat split].
  intros h. rewrite getScore_unfold.
  destruct (downgrade_least (aceCount (Hand.cards h)) (total (Hand.cards h)))
    as (k & Hk & Hle & Heq & Hstop & Hmin).
  exists k. rewrite Heq. auto.
Qed.

(** C6. [isBlackjack] holds exactly for a hand of two cards scoring 21; a
    hand of more than two cards is never a blackjack, whatever its score,
    7,7,7 (which scores 21) included. *)
Theorem isBlackjack_natural_only :
  (∀ h : Hand.t,
    Hand.isBlackjack h = true
    ↔ length (Hand.cards h) = 2 ∧ Hand.getScore h = 21)
  ∧ (∀ h : Hand.t, 2 < length (Hand.cards h) → Hand.isBlackjack h = false)
  ∧ (∀ s1 s2 s3 i1 i2 i3,
      let h := handOf [Card.make s1 Seven i1; Card.make s2 Seven i2;
                       Card.make s3 Seven i3] in
      Hand.getScore h = 21 ∧ Hand.isBlackjack h = false)
  ∧ (∀ s1 s2 i1 i2,
      Hand.isBlackjack (handOf [Card.make s1 Ace i1; Card.make s2 King i2])
      = true).
Proof.
  split; [|split; [|by repeat split]].
  - intros h. unfold Hand.isBlackjack.
    rewrite andb_true_iff, !Nat.eqb_eq. done.
  - intros h Hlen. unfold Hand.isBlackjack.
    apply andb_false_iff. left. apply Nat.eqb_neq. lia.
Qed.

(** C4. The dealer hits below 17; at exactly 17 hits if and only if the
    hand is soft (an Ace, and at most 6 in the other cards) and the table
    does not stand on soft 17; and never hits above 17.  So the dealer hits
    on every 16, hits on A,6 exactly when [standOnSoft17] is false, and
    stands on 10,7. *)
Theorem shouldDealerHit_policy :
  (∀ g : Blackjack.t,
    let score := Hand.getScore (Blackjack.dealerHand g) in
    (score < 17 → Blackjack.shouldDealerHit g = true)
    ∧ (score = 17 →
        (Blackjack.shouldDealerHit g = true
         ↔ isSoft (Blackjack.dealerHand g) ∧ Blackjack.standOnSoft17 g = false))
    ∧ (17 < score → Blackjack.shouldDealerHit g = false))
  ∧ (∀ s1 s2 i1 i2 s17,
      Blackjack.shouldDealerHit
        (dealerHolding (handOf [Card.make s1 Ten i1; Card.make s2 Six i2]) s17)
      = true)
  ∧ (∀ s1 s2 i1 i2 s17,
      Blackjack.shouldDealerHit
        (dealerHolding (handOf [Card.make s1 Ace i1; Card.make s2 Six i2]) s17)
      = negb s17)
  ∧ (∀ s1 s2 i1 i2 s17,
      Blackjack.shouldDealerHit
        (dealerHolding (handOf [Card.make s1 Ten i1; Card.make s2 Seven i2]) s17)
      = false).
Proof.
  split; [|by repeat split].
  intros g. cbv zeta. unfold Blackjack.shouldDealerHit.
  rewrite softness_total. simpl.
  set (score := Hand.getScore (Blackjack.dealerHand g)).
  destruct (Nat.ltb_spec score 17) as [Hlt|Hge].
  { split; [done|]. split; intros; lia. }
  destruct (Nat.eqb_spec score 17) as [Heq|Hne].
  - split; [lia|]. split; [|lia]. intros _.
    rewrite !andb_true_iff, Nat.ltb_lt, Nat.leb_le, negb_true_iff.
    unfold isSoft. by rewrite aceCount_pos.
  - split; [lia|]. split; [lia|done].
Qed.

End Scoring.

(** ** Arrays *)

Section Arrays.

Context {A : Type}.
Implicit Types l r : list A.

Lemma pop_app l x : pop (l ++ [x]) = Some (l, x).
Proof.
  induction l as [|y l IH]; simpl; [done|]. by rewrite IH.
Qed.

Lemma pop_None l : pop l = None ↔ l = [].
Proof.
  split; [|by intros ->].
  destruct l as [|x l]; [done|]. simpl. by destruct (pop l) as [[? ?]|].
Qed.

Lemma pop_Some l r x : pop l = Some (r, x) ↔ l = r ++ [x].
Proof.
  split; [|intros ->; apply pop_app].
  revert r. induction l as [|y l IH]; intros r; simpl; [done|].
  destruct (pop l) as [[r' x']|] eqn:Hp.
  - intros [= <- <-]. simpl. f_equal. by apply IH.
  - intros [= <- <-]. apply pop_None in Hp. by subst.
Qed.

Lemma pop_nonempty l : l ≠ [] → ∃ r x, pop l = Some (r, x) ∧ l = r ++ [x].
Proof.
  intros Hne. destruct (pop l) as [[r x]|] eqn:Hp.
  - exists r, x. split; [done|]. by apply pop_Some.
  - by apply pop_None in Hp.
Qed.

Lemma swap_Permutation i j l : swap i j l ≡ₚ l.
Proof.
  unfold swap.
  destruct (l !! i) as [x|] eqn:Hi; [|done].
  destruct (l !! j) as [y|] eqn:Hj; [|done].
  by apply Permutation_insert_swap.
Qed.

End Arrays.

(** ** The shoe *)

Section ShoeFacts.

Implicit Types s : Shoe.t.
Implicit Types w : World.

Lemma quiet_trans w1 w2 w3 : quiet w1 w2 → quiet w2 w3 → quiet w1 w3.
Proof. unfold quiet. intros [-> ->] [-> ->]. done. Qed.

Lemma shuffleFrom_spec i : ∀ cs w cs' w',
  Shoe.shuffleFrom i cs w = (cs', w') → cs' ≡ₚ cs ∧ quiet w w'.
Proof.
  induction i as [|i IH]; intros cs w cs' w'; simpl.
  - intros [= <- <-]. done.
  - intros Hrun. apply IH in Hrun as [Hperm Hq].
    split; [by rewrite Hperm, swap_Permutation|].
    eapply quiet_trans; [|exact Hq]. done.
Qed.

Lemma shuffle_spec s w s' w' :
  Shoe.shuffle s w = (s', w') →
  Shoe.cards s' ≡ₚ Shoe.cards s
  ∧ s' = Shoe.setCards (Shoe.cards s') s
  ∧ quiet w w'.
Proof.
  unfold Shoe.shuffle.
  destruct (Shoe.shuffleFrom _ _ _) as [cs w1] eqn:Hrun.
  intros [= <- <-]. apply shuffleFrom_spec in Hrun as [Hperm Hq]. done.
Qed.

(** A new deck is 52 cards carrying the next 52 ids in order. *)
Lemma Deck_new_spec w cs w' :
  Deck.new w = (cs, w') →
  Card.id <$> cs = seq (nextId w) 52
  ∧ nextId w' = 52 + nextId w
  ∧ notices w' = notices w.
Proof.
  destruct w as [n r d ns]. vm_compute. intros [= <- <-]. done.
Qed.

Lemma pushDecks_spec n : ∀ cs w cs' w',
  Shoe.pushDecks n cs w = (cs', w') →
  Card.id <$> cs' = (Card.id <$> cs) ++ seq (nextId w) (52 * n)
  ∧ nextId w' = 52 * n + nextId w
  ∧ notices w' = notices w.
Proof.
  induction n as [|n IH]; intros cs w cs' w'; cbn [Shoe.pushDecks].
  - intros [= <- <-]. rewrite Nat.mul_0_r. cbn [seq]. rewrite app_nil_r. done.
  - destruct (Deck.new w) as [deck w1] eqn:Hdeck.
    apply Deck_new_spec in Hdeck as (Hids & Hnext & Hlog).
    intros Hrun. apply IH in Hrun as (Hids' & Hnext' & Hlog').
    rewrite Hids', Hnext', Hlog', Hnext, Hlog, fmap_app, Hids.
    split; [|split; [lia|done]].
    rewrite <- app_assoc. f_equal.
    replace (52 * S n) with (52 + 52 * n) by lia.
    rewrite seq_app. do 2 f_equal. lia.
Qed.

Lemma initializeShoe_spec s w s' w' :
  Shoe.initializeShoe s w = (s', w') →
  Card.id <$> Shoe.cards s' ≡ₚ seq (nextId w) (52 * Shoe.numberOfDecks s)
  ∧ s' = Shoe.setEndAlerted false (Shoe.setCards (Shoe.cards s') s)
  ∧ nextId w' = 52 * Shoe.numberOfDecks s + nextId w
  ∧ notices w' = notices w.
Proof.
  unfold Shoe.initializeShoe.
  destruct (Shoe.pushDecks _ _ _) as [cs w1] eqn:Hpush.
  destruct (Shoe.shuffle _ _) as [s2 w2] eqn:Hshuf.
  intros [= <- <-].
  apply pushDecks_spec in Hpush as (Hids & Hnext & Hlog).
  apply shuffle_spec in Hshuf as (Hperm & Hs2 & [Hq1 Hq2]).
  simpl in *. split; [by rewrite Hperm, Hids|].
  split; [by rewrite Hs2|]. split; congruence.
Qed.

Lemma new_spec n w s' w' :
  Shoe.new n w = (s', w') →
  Card.id <$> Shoe.cards s' ≡ₚ seq (nextId w) (52 * n)
  ∧ s' = Shoe.mk (Shoe.cards s') [] n false false None
  ∧ nextId w' = 52 * n + nextId w
  ∧ notices w' = notices w.
Proof.
  unfold Shoe.new. intros Hinit.
  apply initializeShoe_spec in Hinit as (Hids & Hs' & Hnext & Hlog). done.
Qed.

Lemma recycle_spec s w s' w' :
  Shoe.recycle s w = (s', w') →
  Shoe.cards s' ≡ₚ Shoe.discardPile s
  ∧ s' = Shoe.setDiscardPile [] (Shoe.setCards (Shoe.cards s') s)
  ∧ quiet w w'.
Proof.
  unfold Shoe.recycle. intros Hshuf.
  apply shuffle_spec in Hshuf as (Hperm & Hs' & Hq). simpl in *.
  split; [done|]. split; [|done]. by rewrite Hs'.
Qed.

(** The search loop only moves cards: what it returns, what it leaves in
    [cards] and what it leaves in the discard pile are together the cards
    it started with.  When it gives up with attempts to spare, [cards] is
    empty. *)
Lemma search_spec fuel : ∀ s r s',
  Shoe.search fuel s = (r, s') →
  Shoe.cards s' ++ Shoe.discardPile s' ++ option_list r
    ≡ₚ Shoe.cards s ++ Shoe.discardPile s
  ∧ sameSettings s s'
  ∧ (r = None → length (Shoe.cards s) < fuel → Shoe.cards s' = []).
Proof.
  induction fuel as [|fuel IH]; intros s r s'; cbn [Shoe.search].
  - intros [= <- <-]. simpl. rewrite app_nil_r.
    split; [done|]. split; [done|]. lia.
  - destruct (pop (Shoe.cards s)) as [[rest card]|] eqn:Hpop.
    + apply pop_Some in Hpop. cbn [Shoe.currentRoundDealt Shoe.setCards].
      destruct (Shoe.currentRoundDealt s) as [dealt|].
      * case_decide as Hdup.
        -- intros Hrun. apply IH in Hrun as (Hperm & Hset & Hempty).
           simpl in *. rewrite Hperm, Hpop.
           split.
           { rewrite <- !app_assoc.
             apply Permutation_app_head, Permutation_app_comm. }
           split; [done|].
           intros Hr Hlen. apply Hempty; [done|].
           rewrite length_app in Hlen. simpl in Hlen. lia.
        -- intros [= <- <-]. simpl. rewrite Hpop.
           split; [|done].
           rewrite <- !app_assoc. apply Permutation_app_head, Permutation_app_comm.
      * intros [= <- <-]. simpl. rewrite Hpop.
        split; [|done].
        rewrite <- !app_assoc. apply Permutation_app_head, Permutation_app_comm.
    + intros [= <- <-]. simpl. rewrite app_nil_r.
      apply pop_None in Hpop. done.
Qed.

Lemma alertEndOfShoe_spec n s w s' w' :
  Shoe.alertEndOfShoe n s w = (s', w') →
  Shoe.cards s' = Shoe.cards s
  ∧ Shoe.discardPile s' = Shoe.discardPile s
  ∧ Shoe.numberOfDecks s' = Shoe.numberOfDecks s
  ∧ nextId w' = nextId w.
Proof.
  unfold Shoe.alertEndOfShoe.
  destruct (_ && _); intros [= <- <-]; done.
Qed.

Lemma exhausted_true s :
  exhausted s = true → Shoe.cards s = [] ∧ Shoe.discardPile s = [].
Proof.
  unfold exhausted. rewrite andb_true_iff, !Nat.eqb_eq.
  intros [Hc Hd]. split; by apply nil_length_inv.
Qed.

Lemma refill_spec s w s1 w1 :
  1 ≤ Shoe.numberOfDecks s →
  refill s w = (s1, w1) →
  Shoe.cards s1 ≠ []
  ∧ Shoe.numberOfDecks s1 = Shoe.numberOfDecks s
  ∧ Shoe.currentRoundDealt s1 = Shoe.currentRoundDealt s
  ∧ if exhausted s
    then Card.id <$> (Shoe.cards s1 ++ Shoe.discardPile s1)
           ≡ₚ seq (nextId w) (52 * Shoe.numberOfDecks s)
         ∧ nextId w1 = 52 * Shoe.numberOfDecks s + nextId w
    else Shoe.cards s1 ++ Shoe.discardPile s1
           ≡ₚ Shoe.cards s ++ Shoe.discardPile s
         ∧ nextId w1 = nextId w.
Proof.
  intros Hdecks. unfold refill, exhausted.
  destruct (Shoe.cards s) as [|c cs] eqn:Hcards; simpl.
  - destruct (Shoe.discardPile s) as [|d ds] eqn:Hdisc; simpl.
    + intros Hinit. apply initializeShoe_spec in Hinit
        as (Hperm & Hs1 & Hnext & _).
      assert (Shoe.discardPile s1 = []) as Hd1 by (by rewrite Hs1).
      rewrite Hd1, app_nil_r.
      split; [|by rewrite Hs1].
      intros Hnil. rewrite Hnil in Hperm. simpl in Hperm.
      apply Permutation_length in Hperm. rewrite length_seq in Hperm.
      simpl in Hperm. lia.
    + intros Hrec. apply recycle_spec in Hrec as (Hperm & Hs1 & [Hnext _]).
      assert (Shoe.discardPile s1 = []) as Hd1 by (by rewrite Hs1).
      rewrite Hd1, app_nil_r, Hdisc in *.
      split; [|by rewrite Hs1].
      intros Hnil. rewrite Hnil in Hperm.
      by apply Permutation_nil_cons in Hperm.
  - intros [= <- <-]. rewrite Hcards. done.
Qed.

(** [deal] on a shoe of at least one deck: it returns a card, and the
    card together with what is left in [cards] and in the discard pile is
    what was there before, or, when nothing was there, the fresh decks. *)
Lemma deal_spec s w :
  1 ≤ Shoe.numberOfDecks s →
  ∃ c s' w',
    Shoe.deal s w = (Some c, s', w')
    ∧ Shoe.numberOfDecks s' = Shoe.numberOfDecks s
    ∧ if exhausted s
      then Card.id <$> (Shoe.cards s' ++ Shoe.discardPile s' ++ [c])
             ≡ₚ seq (nextId w) (52 * Shoe.numberOfDecks s)
           ∧ nextId w' = 52 * Shoe.numberOfDecks s + nextId w
      else Shoe.cards s' ++ Shoe.discardPile s' ++ [c]
             ≡ₚ Shoe.cards s ++ Shoe.discardPile s
           ∧ nextId w' = nextId w.
Proof.
  intros Hdecks. unfold Shoe.deal.
  change (if length (Shoe.cards s) =? 0
          then (if length (Shoe.discardPile s) =? 0
                then Shoe.initializeShoe s w
                else Shoe.recycle s w)
          else (s, w)) with (refill s w).
  destruct (refill s w) as [s1 w1] eqn:Hrefill.
  apply refill_spec in Hrefill as (Hne & Hd1 & _ & Hpool); [|done].
  destruct (Shoe.search _ s1) as [r s2] eqn:Hsearch.
  apply search_spec in Hsearch as (Hperm & (Hd2 & _ & _) & Hempty).
  destruct r as [card|].
  - exists card, s2, w1. split; [done|]. split; [congruence|].
    simpl in Hperm.
    destruct (exhausted s); destruct Hpool as [Hp Hn]; (split; [|done]).
    + by rewrite Hperm.
    + by rewrite Hperm.
  - simpl in Hperm. rewrite app_nil_r in Hperm.
    assert (Shoe.cards s2 = []) as Hc2 by (apply Hempty; [done | lia]).
    rewrite Hc2 in *. simpl in Hperm.
    assert (Shoe.discardPile s2 ≠ []) as Hd2ne.
    { intros Hnil. rewrite Hnil in Hperm.
      apply Permutation_nil_l in Hperm. symmetry in Hperm.
      by apply app_eq_nil in Hperm as [? _]. }
    destruct (Shoe.discardPile s2) as [|d ds] eqn:Hdisc2; [done|].
    cbn [length Nat.eqb Nat.ltb Nat.leb].
    destruct (Shoe.recycle s2 w1) as [s3 w3] eqn:Hrec.
    apply recycle_spec in Hrec as (Hp3 & Hs3 & [Hn3 _]).
    rewrite Hdisc2 in Hp3.
    destruct (pop_nonempty (Shoe.cards s3)) as (rest & c & Hpop & Hc3).
    { intros Hnil. rewrite Hnil in Hp3.
      by apply Permutation_nil_cons in Hp3. }
    rewrite Hpop.
    set (s5 := match Shoe.currentRoundDealt (Shoe.setCards rest s3) with
               | Some dealt =>
                   Shoe.setCurrentRoundDealt
                     (Some ({[Card.id c]} ∪ dealt)) (Shoe.setCards rest s3)
               | None => Shoe.setCards rest s3
               end).
    assert (Shoe.cards s5 = rest ∧ Shoe.discardPile s5 = []
            ∧ Shoe.numberOfDecks s5 = Shoe.numberOfDecks s) as (H5c & H5d & H5n).
    { subst s5. rewrite Hs3 in *.
      destruct (Shoe.currentRoundDealt _); simpl; repeat split; congruence. }
    destruct (Shoe.alertEndOfShoe _ s5 w3) as [s6 w6] eqn:Halert.
    apply alertEndOfShoe_spec in Halert as (H6c & H6d & H6n & H6w).
    exists c, s6, w6. split; [done|]. split; [congruence|].
    rewrite H6c, H6d, H5c, H5d. cbn [app].
    assert (rest ++ [c] ≡ₚ Shoe.cards s1 ++ Shoe.discardPile s1) as Hall
      by (by rewrite <- Hc3, Hp3, Hperm).
    destruct (exhausted s); destruct Hpool as [Hp Hn]; (split; [|congruence]).
    + by rewrite Hall.
    + by rewrite Hall.
Qed.

End ShoeFacts.

(** ** Dealing *)

Section Dealing.

Implicit Types s : Shoe.t.
Implicit Types w : World.

(** C3. On a shoe of at least one deck, in whatever state, [deal] returns
    a card.  With [cards] empty and cards in the discard pile, the card
    comes from the discard pile, which has been moved into [cards]; with
    both empty, the shoe has been rebuilt from [52 * numberOfDecks] new
    cards; otherwise the card comes from what was there. *)
Theorem deal_always_returns_a_card s w :
  1 ≤ Shoe.numberOfDecks s →
  ∃ c s' w',
    Shoe.deal s w = (Some c, s', w')
    ∧ (Shoe.cards s = [] → Shoe.discardPile s ≠ [] →
         c ∈ Shoe.discardPile s
         ∧ Shoe.cards s' ++ Shoe.discardPile s' ++ [c] ≡ₚ Shoe.discardPile s
         ∧ nextId w' = nextId w)
    ∧ (Shoe.cards s = [] → Shoe.discardPile s = [] →
         Card.id <$> (Shoe.cards s' ++ Shoe.discardPile s' ++ [c])
           ≡ₚ seq (nextId w) (52 * Shoe.numberOfDecks s)
         ∧ nextId w' = 52 * Shoe.numberOfDecks s + nextId w)
    ∧ (Shoe.cards s ≠ [] →
         Shoe.cards s' ++ Shoe.discardPile s' ++ [c]
           ≡ₚ Shoe.cards s ++ Shoe.discardPile s
         ∧ nextId w' = nextId w).
Proof.
  intros Hdecks.
  destruct (deal_spec s w Hdecks) as (c & s' & w' & Hdeal & _ & Hpool).
  exists c, s', w'. split; [done|].
  unfold exhausted in Hpool.
  destruct (Shoe.cards s) as [|x xs]; simpl in Hpool.
  - destruct (Shoe.discardPile s) as [|d ds]; simpl in Hpool.
    + repeat split; try done; by destruct Hpool.
    + destruct Hpool as [Hperm Hnext].
      split; [|split; [done|done]].
      intros _ _. split; [|done].
      rewrite <- Hperm. rewrite !elem_of_app, list_elem_of_singleton. auto.
  - destruct Hpool as [Hperm Hnext]. repeat split; done.
Qed.

Lemma maxAttempts_pos n : ∃ m, Nat.max 10 (n + 5) = S m.
Proof. exists (Nat.max 10 (n + 5) - 1). lia. Qed.

(** With no round open, a non-empty shoe hands out its top card through
    the first [return] of the loop. *)
Lemma deal_top_no_round s w rest c :
  Shoe.cards s = rest ++ [c] →
  Shoe.currentRoundDealt s = None →
  Shoe.deal s w = (Some c, Shoe.setCards rest s, w).
Proof.
  intros Hcards Hround. unfold Shoe.deal.
  assert (length (Shoe.cards s) = S (length rest)) as Hlen
    by (by rewrite Hcards, length_app, Nat.add_1_r).
  rewrite Hlen. cbn [Nat.eqb]. rewrite Hlen.
  destruct (maxAttempts_pos (S (length rest))) as [m ->].
  cbn [Shoe.search]. rewrite Hcards, pop_app.
  cbn [Shoe.currentRoundDealt Shoe.setCards]. by rewrite Hround.
Qed.

(** In an open round, a top card not yet dealt this round leaves through
    the second [return] of the loop. *)
Lemma deal_top_fresh s w rest c dealt :
  Shoe.cards s = rest ++ [c] →
  Shoe.currentRoundDealt s = Some dealt →
  Card.id c ∉ dealt →
  Shoe.deal s w
  = (Some c,
     Shoe.setCurrentRoundDealt (Some ({[Card.id c]} ∪ dealt))
       (Shoe.setCards rest s),
     w).
Proof.
  intros Hcards Hround Hfresh. unfold Shoe.deal.
  assert (length (Shoe.cards s) = S (length rest)) as Hlen
    by (by rewrite Hcards, length_app, Nat.add_1_r).
  rewrite Hlen. cbn [Nat.eqb]. rewrite Hlen.
  destruct (maxAttempts_pos (S (length rest))) as [m ->].
  cbn [Shoe.search]. rewrite Hcards, pop_app.
  cbn [Shoe.currentRoundDealt Shoe.setCards]. rewrite Hround.
  by rewrite decide_False.
Qed.

(** Dealing the top of a shoe in an open round, as long as its cards are
    distinct and none was dealt this round: the cards come out top first
    and the world is not touched. *)
Lemma dealMany_fresh tops : ∀ rest s w dealt,
  Shoe.cards s = rest ++ tops →
  NoDup (Card.id <$> tops) →
  Shoe.currentRoundDealt s = Some dealt →
  (∀ c, c ∈ tops → Card.id c ∉ dealt) →
  ∃ dealt',
    Shoe.dealMany (length tops) s w
    = (Some <$> reverse tops,
       Shoe.setCurrentRoundDealt (Some dealt') (Shoe.setCards rest s),
       w).
Proof.
  induction tops as [|c tops IH] using rev_ind;
    intros rest s w dealt Hcards Hnodup Hround Hfresh.
  - exists dealt. simpl. rewrite app_nil_r in Hcards.
    destruct s; simpl in *. by subst.
  - rewrite length_app, Nat.add_1_r, reverse_snoc. cbn [Shoe.dealMany].
    rewrite app_assoc in Hcards.
    rewrite (deal_top_fresh s w (rest ++ tops) c dealt Hcards Hround).
    2:{ apply Hfresh. rewrite elem_of_app, list_elem_of_singleton. auto. }
    rewrite fmap_app in Hnodup. apply NoDup_app in Hnodup as (Hn1 & Hn2 & _).
    edestruct (IH rest
                (Shoe.setCurrentRoundDealt (Some ({[Card.id c]} ∪ dealt))
                   (Shoe.setCards (rest ++ tops) s)) w
                ({[Card.id c]} ∪ dealt)) as [dealt' ->]; [done..| |].
    + intros c' Hin. rewrite not_elem_of_union, not_elem_of_singleton.
      split.
      * intros Heq. apply (Hn2 (Card.id c')).
        -- by apply list_elem_of_fmap_2.
        -- rewrite Heq. simpl. left.
      * apply Hfresh. rewrite elem_of_app. auto.
    + exists dealt'. done.
Qed.

(** C1, on the code.  Build a one-deck shoe, install a callback or not,
    open a round and call [deal] 52 times with no discard in between.
    Every call returns a card, the 52nd included, and the shoe ends up
    empty; but the notification log is what it was before the shoe was
    built and [_endAlerted] is still false: the end-of-shoe notification
    did not fire. *)
Theorem one_deck_dealt_out_without_notice w hook :
  ∃ s0 w0 dealt s',
    Shoe.new 1 w = (s0, w0)
    ∧ Shoe.dealMany 52 (Shoe.startRound (Shoe.setOnEndOfShoe hook s0)) w0
      = (Some <$> dealt, s', w0)
    ∧ length dealt = 52
    ∧ Shoe.cards s' = []
    ∧ Shoe.discardPile s' = []
    ∧ Shoe._endAlerted s' = false
    ∧ notices w0 = notices w.
Proof.
  destruct (Shoe.new 1 w) as [s0 w0] eqn:Hnew.
  apply new_spec in Hnew as (Hids & Hs0 & _ & Hlog).
  rewrite Nat.mul_1_r in Hids.
  assert (length (Shoe.cards s0) = 52) as Hlen.
  { apply Permutation_length in Hids.
    by rewrite length_fmap, length_seq in Hids. }
  destruct (dealMany_fresh (Shoe.cards s0) []
              (Shoe.startRound (Shoe.setOnEndOfShoe hook s0)) w0 ∅)
    as [dealt' Hrun].
  - done.
  - rewrite Hids. apply NoDup_seq.
  - done.
  - intros c _. apply not_elem_of_empty.
  - rewrite Hlen in Hrun.
    exists s0, w0, (reverse (Shoe.cards s0)). eexists.
    split; [done|]. split; [exact Hrun|].
    rewrite length_reverse. rewrite Hs0. done.
Qed.

(** Where the notification does fire: the only card left was already dealt
    this round, so the loop sets it aside, runs dry, and the fallback takes
    the card back from the discard pile and reaches the end-of-shoe block. *)
Lemma notice_on_duplicate_last_card :
  let last := Card.make Spades Ace 7 in
  let s := Shoe.mk [last] [] 1 true false (Some {[7]}) in
  ∃ s' w',
    Shoe.deal s world0 = (Some last, s', w')
    ∧ Shoe._endAlerted s' = true
    ∧ notices w' = [HookCalled].
Proof.
  intros last s.
  destruct (Shoe.deal s world0) as [[r s'] w'] eqn:Hdeal.
  exists s', w'. vm_compute in Hdeal.
  by injection Hdeal as <- <- <-.
Qed.

End Dealing.

(** ** Player actions *)

Section Actions.

Import ScoringRule.
Implicit Types g : Blackjack.t.
Implicit Types w : World.

Lemma theHand_Some i h g w :
  Blackjack.playerHands g !! i = Some h →
  Blackjack.theHand i g w = (Return h, g, w).
Proof. unfold Blackjack.theHand. by intros ->. Qed.

Lemma dealCard_Some g w c s' w' :
  Shoe.deal (Blackjack.shoe g) w = (Some c, s', w') →
  Blackjack.dealCard g w = (Return c, Blackjack.setShoe s' g, w').
Proof. unfold Blackjack.dealCard. by intros ->. Qed.

Lemma endHand_run i g w :
  Blackjack.endHand i g w
  = (Return tt, Blackjack.setCurrentHandIndex (nextHand i g) g, w).
Proof.
  unfold Blackjack.endHand, nextHand.
  destruct (_ <? _); [done|]. by destruct g.
Qed.

Lemma numberOr_bet b : numberOr (Some b) 0 = b.
Proof. unfold numberOr. destruct (Z.eqb_spec b 0); congruence. Qed.

(** Inserting right after position [i], whose hand has just been
    replaced. *)
Lemma splice_after {A} (i : nat) : ∀ (l : list A) h x n,
  l !! i = Some h →
  splice_in (i + 1) n (<[i:=x]> l) = take i l ++ x :: n :: drop (S i) l.
Proof.
  unfold splice_in.
  induction i as [|i IH]; intros [|y l] h x n Hl; try done; simpl in *.
  f_equal. by apply IH with h.
Qed.

Ltac run_bind := unfold mbind, Blackjack.M_bind; cbn beta iota.

(** [surrender] on an existing hand, step by step. *)
Lemma surrender_run g w i hand :
  Blackjack.playerHands g !! i = Some hand →
  Blackjack.surrender i g w
  = if negb (Blackjack.allowSurrender g)
    then (Throw SurrenderNotAllowed, g, w)
    else if 2 <? length (Hand.cards hand)
    then (Throw SurrenderInitialOnly, g, w)
    else (Return tt,
          Blackjack.setCurrentHandIndex (nextHand i g)
            (Blackjack.setPlayerHands
               (<[i:=Hand.mk (Hand.cards hand) (Hand.bet hand)
                       (Hand.originalBet hand) (Hand.hasStood hand) true
                       (Hand.doubled hand) (Hand.isSplit hand)]>
                  (Blackjack.playerHands g)) g),
          w).
Proof.
  intros Hhand. unfold Blackjack.surrender, Blackjack.this. run_bind.
  destruct (negb (Blackjack.allowSurrender g)); [done|].
  run_bind. rewrite (theHand_Some _ _ _ _ Hhand).
  destruct (2 <? length (Hand.cards hand)); [done|].
  run_bind. unfold Blackjack.putHand, Blackjack.modify.
  rewrite endHand_run. unfold nextHand. simpl.
  by rewrite length_insert.
Qed.

Lemma hit_run g w i hand c s' w' :
  Blackjack.playerHands g !! i = Some hand →
  Shoe.deal (Blackjack.shoe g) w = (Some c, s', w') →
  Blackjack.hit i g w
  = (Return c,
     Blackjack.setCurrentHandIndex
       (if Hand.isBusted (Hand.addCard c hand)
        then nextHand i g
        else Blackjack.currentHandIndex g)
       (Blackjack.setPlayerHands
          (<[i:=Hand.addCard c hand]> (Blackjack.playerHands g))
          (Blackjack.setShoe s' g)),
     w').
Proof.
  intros Hhand Hdeal. unfold Blackjack.hit. run_bind.
  rewrite (dealCard_Some _ _ _ _ _ Hdeal).
  rewrite (theHand_Some i hand) by done.
  unfold Blackjack.putHand, Blackjack.modify. run_bind.
  destruct (Hand.isBusted (Hand.addCard c hand)).
  - rewrite endHand_run. unfold nextHand. simpl. by rewrite length_insert.
  - done.
Qed.

Lemma stand_run g w i hand :
  Blackjack.playerHands g !! i = Some hand →
  Blackjack.stand i g w
  = (Return tt,
     Blackjack.setCurrentHandIndex (nextHand i g)
       (Blackjack.setPlayerHands
          (<[i:=Hand.mk (Hand.cards hand) (Hand.bet hand)
                  (Hand.originalBet hand) true (Hand.hasSurrendered hand)
                  (Hand.doubled hand) (Hand.isSplit hand)]>
             (Blackjack.playerHands g)) g),
     w).
Proof.
  intros Hhand. unfold Blackjack.stand. run_bind.
  rewrite (theHand_Some i hand) by done.
  unfold Blackjack.putHand, Blackjack.modify. run_bind.
  rewrite endHand_run. unfold nextHand. simpl. by rewrite length_insert.
Qed.

(** The only exception [hit] and [stand] can raise is a [TypeError]. *)
Lemma hit_Throw g w i e g' w' :
  Blackjack.hit i g w = (Throw e, g', w') → e = TypeError.
Proof.
  unfold Blackjack.hit, Blackjack.dealCard, Blackjack.theHand,
    Blackjack.putHand, Blackjack.modify, Blackjack.endHand. run_bind.
  destruct (Shoe.deal _ _) as [[[c|] s1] w1]; [|by intros [= <- _ _]].
  simpl. destruct (_ !! i); [|by intros [= <- _ _]].
  destruct (Hand.isBusted _); [|done].
  by destruct (_ <? _).
Qed.

Lemma stand_Throw g w i e g' w' :
  Blackjack.stand i g w = (Throw e, g', w') → e = TypeError.
Proof.
  unfold Blackjack.stand, Blackjack.theHand, Blackjack.putHand,
    Blackjack.modify, Blackjack.endHand. run_bind.
  destruct (_ !! i); [|by intros [= <- _ _]].
  simpl. by destruct (_ <? _).
Qed.

(** C9. [surrender] on a player hand throws exactly when surrender is
    switched off or the hand holds more than two cards.  Otherwise it marks
    the hand surrendered and ends it: the current hand index moves to the
    next hand when there is one and stays where it is when the hand is the
    last; nothing else changes. *)
Theorem surrender_contract g w i hand :
  Blackjack.playerHands g !! i = Some hand →
  ((∃ e g' w', Blackjack.surrender i g w = (Throw e, g', w'))
     ↔ Blackjack.allowSurrender g = false ∨ 2 < length (Hand.cards hand))
  ∧ (Blackjack.allowSurrender g = true → length (Hand.cards hand) ≤ 2 →
      ∃ g',
        Blackjack.surrender i g w = (Return tt, g', w)
        ∧ Blackjack.playerHands g'
          = <[i:=Hand.mk (Hand.cards hand) (Hand.bet hand)
                   (Hand.originalBet hand) (Hand.hasStood hand) true
                   (Hand.doubled hand) (Hand.isSplit hand)]>
              (Blackjack.playerHands g)
        ∧ (i + 1 < length (Blackjack.playerHands g) →
             Blackjack.currentHandIndex g' = i + 1)
        ∧ (length (Blackjack.playerHands g) ≤ i + 1 →
             Blackjack.currentHandIndex g' = Blackjack.currentHandIndex g)
        ∧ Blackjack.shoe g' = Blackjack.shoe g
        ∧ Blackjack.dealerHand g' = Blackjack.dealerHand g
        ∧ Blackjack.chips g' = Blackjack.chips g).
Proof.
  intros Hhand. rewrite (surrender_run g w i hand Hhand).
  destruct (Blackjack.allowSurrender g) eqn:Hallow; simpl.
  - destruct (Nat.ltb_spec 2 (length (Hand.cards hand))) as [Hlen|Hlen].
    + split; [|lia]. split; [auto|]. intros _. by eexists _, _, _.
    + split.
      * split; [by intros (? & ? & ? & ?)|]. intros [?|?]; [done|lia].
      * intros _ _. eexists. split; [done|]. simpl. unfold nextHand.
        repeat split; try done.
        -- intros Hnext.
           destruct (Nat.ltb_spec i (length (Blackjack.playerHands g) - 1));
             [done|lia].
        -- intros Hlast.
           destruct (Nat.ltb_spec i (length (Blackjack.playerHands g) - 1));
             [lia|done].
  - split; [|done]. split; [auto|]. intros _. by eexists _, _, _.
Qed.

Lemma double_run g w i hand c s' w' :
  Blackjack.playerHands g !! i = Some hand →
  length (Hand.cards hand) = 2 →
  Shoe.deal (Blackjack.shoe g) w = (Some c, s', w') →
  Blackjack.double i g w
  = (Return tt,
     Blackjack.setCurrentHandIndex (nextHand i g)
       (Blackjack.setPlayerHands
          (<[i:=doubledHand hand c]> (Blackjack.playerHands g))
          (Blackjack.setShoe s' g)),
     w').
Proof.
  intros Hhand Hlen Hdeal.
  assert (i < length (Blackjack.playerHands g)) as Hi
    by (by eapply lookup_lt_Some).
  unfold Blackjack.double. run_bind.
  rewrite (theHand_Some i hand) by done.
  rewrite Hlen. cbn [Nat.eqb negb].
  unfold Blackjack.putHand at 1. unfold Blackjack.modify. run_bind.
  erewrite hit_run; [| |exact Hdeal].
  2:{ cbn [Blackjack.playerHands Blackjack.setPlayerHands].
      by apply list_lookup_insert_eq. }
  erewrite theHand_Some.
  2:{ cbn [Blackjack.playerHands Blackjack.setPlayerHands
           Blackjack.setCurrentHandIndex Blackjack.setShoe].
      rewrite list_insert_insert_eq. by apply list_lookup_insert_eq. }
  unfold doubledHand. rewrite numberOr_bet.
  change (Hand.isBusted (Hand.addCard c (Hand.mk _ _ _ _ _ _ _)))
    with (Hand.isBusted (Hand.addCard c hand)).
  destruct (Hand.isBusted (Hand.addCard c hand)); cbn [negb].
  - unfold Blackjack.ret, nextHand. simpl.
    by rewrite list_insert_insert_eq, length_insert.
  - erewrite stand_run.
    2:{ cbn [Blackjack.playerHands Blackjack.setPlayerHands
             Blackjack.setCurrentHandIndex Blackjack.setShoe].
        rewrite list_insert_insert_eq. by apply list_lookup_insert_eq. }
    unfold nextHand. simpl.
    by rewrite !list_insert_insert_eq, !length_insert.
Qed.

(** C8. [double] on a player hand throws exactly when the hand does not
    hold two cards.  Otherwise it takes [originalBet] from the bet if it
    was unset, marks the hand doubled, doubles the bet, and deals the hand
    one card from the shoe; it then stands the hand, marking it stood and
    ending it, exactly when that card does not bust it (a busting card ends
    the hand too, as in [hit], but leaves [hasStood] alone). *)
Theorem double_contract g w i hand :
  Blackjack.playerHands g !! i = Some hand →
  1 ≤ Shoe.numberOfDecks (Blackjack.shoe g) →
  ((∃ e g' w', Blackjack.double i g w = (Throw e, g', w'))
     ↔ length (Hand.cards hand) ≠ 2)
  ∧ (length (Hand.cards hand) = 2 →
      ∃ c s' w' g' hand',
        Shoe.deal (Blackjack.shoe g) w = (Some c, s', w')
        ∧ Blackjack.double i g w = (Return tt, g', w')
        ∧ Blackjack.shoe g' = s'
        ∧ Blackjack.playerHands g' = <[i:=hand']> (Blackjack.playerHands g)
        ∧ Hand.cards hand' = Hand.cards hand ++ [c]
        ∧ Hand.bet hand' = (Hand.bet hand * 2)%Z
        ∧ Hand.doubled hand' = Some true
        ∧ (Hand.originalBet hand = None →
             Hand.originalBet hand' = Some (Hand.bet hand))
        ∧ (∀ b, Hand.originalBet hand = Some b → b ≠ 0%Z →
             Hand.originalBet hand' = Some b)
        ∧ (Hand.isBusted hand' = false → Hand.hasStood hand' = true)
        ∧ (Hand.isBusted hand' = true →
             Hand.hasStood hand' = Hand.hasStood hand)
        ∧ (i + 1 < length (Blackjack.playerHands g) →
             Blackjack.currentHandIndex g' = i + 1)
        ∧ (length (Blackjack.playerHands g) ≤ i + 1 →
             Blackjack.currentHandIndex g' = Blackjack.currentHandIndex g)
        ∧ Blackjack.dealerHand g' = Blackjack.dealerHand g
        ∧ (Hand.hasStood hand = false →
             (Hand.hasStood hand' = true ↔ Hand.isBusted hand' = false))).
Proof.
  intros Hhand Hdecks.
  destruct (decide (length (Hand.cards hand) = 2)) as [Hlen|Hlen].
  - destruct (deal_spec (Blackjack.shoe g) w Hdecks)
      as (c & s' & w' & Hdeal & _).
    pose proof (double_run g w i hand c s' w' Hhand Hlen Hdeal) as Hrun.
    split.
    + rewrite Hrun. split; [by intros (? & ? & ? & ?)|done].
    + intros _. exists c, s', w'. eexists. exists (doubledHand hand c).
      split; [done|]. split; [exact Hrun|].
      change (Hand.isBusted (doubledHand hand c))
        with (Hand.isBusted (Hand.addCard c hand)).
      unfold doubledHand, nextHand. simpl.
      repeat split; try done.
      * by intros ->.
      * intros b -> Hb. simpl. by destruct (Z.eqb_spec b 0).
      * by intros ->.
      * by intros ->.
      * intros Hnext.
        destruct (Nat.ltb_spec i (length (Blackjack.playerHands g) - 1));
          [done|lia].
      * intros Hlast.
        destruct (Nat.ltb_spec i (length (Blackjack.playerHands g) - 1));
          [lia|done].
      * intros Hstood. destruct (Hand.isBusted _); [congruence|done].
      * by intros ->.
  - split; [|done]. split; [done|]. intros _.
    exists DoubleInitialOnly, g, w.
    unfold Blackjack.double. run_bind.
    rewrite (theHand_Some i hand) by done.
    by destruct (Nat.eqb_spec (length (Hand.cards hand)) 2).
Qed.

Lemma split_run g w i hand a b c1 s1 w1 c2 s2 w2 :
  Blackjack.playerHands g !! i = Some hand →
  Hand.cards hand = [a; b] →
  Card.getValue a = Card.getValue b →
  Shoe.deal (Blackjack.shoe g) w = (Some c1, s1, w1) →
  Shoe.deal s1 w1 = (Some c2, s2, w2) →
  Blackjack.split i g w
  = (Return tt,
     Blackjack.setPlayerHands
       (take i (Blackjack.playerHands g)
        ++ Hand.mk [a; c2] (Hand.bet hand) (Hand.originalBet hand)
             (Hand.hasStood hand) (Hand.hasSurrendered hand)
             (Hand.doubled hand) true
        :: Hand.mk [b; c1] (Hand.bet hand)
             (Some (numberOr (Hand.originalBet hand) (Hand.bet hand)))
             false false (Some false) true
        :: drop (S i) (Blackjack.playerHands g))
       (Blackjack.setShoe s2 g),
     w2).
Proof.
  intros Hhand Hcards Hvalue Hdeal1 Hdeal2.
  assert (i < length (Blackjack.playerHands g)) as Hi
    by (by eapply lookup_lt_Some).
  unfold Blackjack.split. run_bind.
  rewrite (theHand_Some i hand) by done.
  rewrite Hcards, Hvalue, Nat.eqb_refl. cbn [negb].
  unfold Blackjack.putHand, Blackjack.modify. run_bind.
  erewrite dealCard_Some; [|exact Hdeal1].
  erewrite dealCard_Some; [|exact Hdeal2].
  erewrite theHand_Some.
  2:{ cbn [Blackjack.playerHands Blackjack.setPlayerHands Blackjack.setShoe].
      by apply list_lookup_insert_eq. }
  simpl. rewrite list_insert_insert_eq.
  by erewrite splice_after.
Qed.

(** C7. [split] on a player hand throws unless the hand holds exactly two
    cards of equal value.  On such a pair it leaves, at the place of the
    hand, the hand itself with its first card and the second card dealt,
    immediately followed by a new hand with the former second card and the
    first card dealt; both are marked split, and the new hand carries the
    bet and, as original bet, the source hand's original bet or else its
    bet.  Equal value is what counts: 10, J, Q and K all pair up. *)
Theorem split_contract g w i hand :
  Blackjack.playerHands g !! i = Some hand →
  1 ≤ Shoe.numberOfDecks (Blackjack.shoe g) →
  (¬ isPair hand →
     Blackjack.split i g w = (Throw SplitIdenticalOnly, g, w))
  ∧ (∀ a b, Hand.cards hand = [a; b] → Card.getValue a = Card.getValue b →
      ∃ c1 s1 w1 c2 s2 w2 g' source newHand,
        Shoe.deal (Blackjack.shoe g) w = (Some c1, s1, w1)
        ∧ Shoe.deal s1 w1 = (Some c2, s2, w2)
        ∧ Blackjack.split i g w = (Return tt, g', w2)
        ∧ Blackjack.shoe g' = s2
        ∧ Blackjack.playerHands g'
          = take i (Blackjack.playerHands g)
            ++ source :: newHand :: drop (S i) (Blackjack.playerHands g)
        ∧ Hand.cards source = [a; c2]
        ∧ Hand.cards newHand = [b; c1]
        ∧ Hand.isSplit source = true
        ∧ Hand.isSplit newHand = true
        ∧ Hand.bet source = Hand.bet hand
        ∧ Hand.originalBet source = Hand.originalBet hand
        ∧ Hand.bet newHand = Hand.bet hand
        ∧ Hand.originalBet newHand
          = Some (numberOr (Hand.originalBet hand) (Hand.bet hand))
        ∧ Blackjack.currentHandIndex g' = Blackjack.currentHandIndex g
        ∧ Blackjack.dealerHand g' = Blackjack.dealerHand g)
  ∧ (∀ r1 r2 s1 s2 i1 i2,
      r1 ∈ [Ten; Jack; Queen; King] → r2 ∈ [Ten; Jack; Queen; King] →
      isPair (handOf [Card.make s1 r1 i1; Card.make s2 r2 i2])).
Proof.
  intros Hhand Hdecks. split; [|split].
  - intros Hnot. unfold Blackjack.split. run_bind.
    rewrite (theHand_Some i hand) by done.
    destruct (Hand.cards hand) as [|a [|b [|c cs]]] eqn:Hcards; try done.
    destruct (Nat.eqb_spec (Card.getValue a) (Card.getValue b)) as [Heq|Hne];
      [|done].
    destruct Hnot. by exists a, b.
  - intros a b Hcards Hvalue.
    destruct (deal_spec (Blackjack.shoe g) w Hdecks)
      as (c1 & s1 & w1 & Hdeal1 & Hdecks1 & _).
    rewrite <- Hdecks1 in Hdecks.
    destruct (deal_spec s1 w1 Hdecks) as (c2 & s2 & w2 & Hdeal2 & _).
    exists c1, s1, w1, c2, s2, w2. eexists _, _, _.
    split; [done|]. split; [done|].
    split; [by apply (split_run g w i hand a b c1 s1 w1 c2 s2 w2)|].
    done.
  - intros r1 r2 s1 s2 i1 i2 Hr1 Hr2. eexists _, _. split; [done|].
    unfold Card.getValue. simpl.
    repeat (apply elem_of_cons in Hr1 as [->|Hr1]);
      [..|by apply elem_of_nil in Hr1];
      repeat (apply elem_of_cons in Hr2 as [->|Hr2]);
      try done; by apply elem_of_nil in Hr2.
Qed.

(** The only other exception the three actions can raise is a
    [TypeError]; the errors of the guards come from the guards. *)
Lemma double_Throw g w i g' w' :
  Blackjack.double i g w = (Throw DoubleInitialOnly, g', w') →
  g' = g ∧ w' = w.
Proof.
  unfold Blackjack.double. run_bind.
  unfold Blackjack.theHand at 1.
  destruct (_ !! i) as [hand|]; [|done].
  destruct (negb _); [by intros [= <- <-]|].
  unfold Blackjack.putHand, Blackjack.modify. run_bind.
  destruct (Blackjack.hit _ _ _) as [[[c|e] g1] w1] eqn:Hhit.
  - unfold Blackjack.theHand.
    destruct (_ !! i) as [hand'|]; [|done].
    destruct (negb _); [|done].
    destruct (Blackjack.stand _ _ _) as [[[[]|e] g2] w2] eqn:Hstand; [done|].
    apply stand_Throw in Hstand. by subst.
  - apply hit_Throw in Hhit. by subst.
Qed.

Lemma split_Throw g w i g' w' :
  Blackjack.split i g w = (Throw SplitIdenticalOnly, g', w') →
  g' = g ∧ w' = w.
Proof.
  unfold Blackjack.split. run_bind.
  unfold Blackjack.theHand at 1.
  destruct (_ !! i) as [hand|]; [|done].
  destruct (Hand.cards hand) as [|a [|b [|c cs]]];
    try by intros [= <- <-].
  destruct (negb _); [by intros [= <- <-]|].
  unfold Blackjack.putHand, Blackjack.modify, Blackjack.dealCard,
    Blackjack.theHand. run_bind.
  destruct (Shoe.deal _ _) as [[[c1|] s1] w1]; [|done].
  simpl. destruct (Shoe.deal _ _) as [[[c2|] s2] w2]; [|done].
  simpl. by destruct (_ !! i).
Qed.

(** C10. When [surrender], [double] or [split] throws the error of its
    guard, the controller, shoe and hands included, and the world are
    exactly what they were before the call. *)
Theorem failed_action_changes_nothing g w i g' w' :
  (Blackjack.surrender i g w = (Throw SurrenderNotAllowed, g', w') →
     g' = g ∧ w' = w)
  ∧ (Blackjack.surrender i g w = (Throw SurrenderInitialOnly, g', w') →
     g' = g ∧ w' = w)
  ∧ (Blackjack.double i g w = (Throw DoubleInitialOnly, g', w') →
     g' = g ∧ w' = w)
  ∧ (Blackjack.split i g w = (Throw SplitIdenticalOnly, g', w') →
     g' = g ∧ w' = w).
Proof.
  assert (∀ e, Blackjack.surrender i g w = (Throw e, g', w') → g' = g ∧ w' = w)
    as Hsurrender.
  { intros e. unfold Blackjack.surrender, Blackjack.this. run_bind.
    destruct (negb _); [by intros [= _ <- <-]|]. run_bind.
    unfold Blackjack.theHand.
    destruct (_ !! i) as [hand|]; [|by intros [= _ <- <-]].
    destruct (_ <? _); [by intros [= _ <- <-]|].
    unfold Blackjack.putHand, Blackjack.modify, Blackjack.endHand. run_bind.
    by destruct (_ <? _). }
  split; [apply Hsurrender|]. split; [apply Hsurrender|].
  split; [apply double_Throw | apply split_Throw].
Qed.

End Actions.

(** ** Conservation of cards *)

Section Conservation.

Local Arguments Nat.mul : simpl never.

Implicit Types g : Blackjack.t.
Implicit Types w : World.

Lemma discardHands_spec hs : ∀ s,
  Blackjack.discardHands hs s
  = Shoe.setDiscardPile (Shoe.discardPile s ++ concat (Hand.cards <$> hs)) s.
Proof.
  induction hs as [|h hs IH]; intros s; simpl.
  - rewrite app_nil_r. by destruct s.
  - rewrite IH. unfold Shoe.setDiscardPile. simpl. by rewrite <- app_assoc.
Qed.

Lemma held_after_addCard (hs : list Hand.t) c : ∀ i h,
  hs !! i = Some h →
  concat (Hand.cards <$> <[i:=Hand.addCard c h]> hs)
    ≡ₚ concat (Hand.cards <$> hs) ++ [c].
Proof.
  induction hs as [|h0 hs IH]; intros [|i] h Hh; try done; simpl in *.
  - injection Hh as ->. by rewrite <- !app_assoc, (Permutation_app_comm [c]).
  - rewrite (IH i h Hh). by rewrite app_assoc.
Qed.

(** The number of decks the table was built with and the id counter
    before the table was built. *)
Variables (D base : nat).
Hypothesis D_pos : 1 ≤ D.

(** A card dealt into the hands: [held'] is [held] with the card. *)
Lemma deal_conserved k s w c s' w' held held' :
  Shoe.numberOfDecks s = D →
  Card.id <$> (Shoe.cards s ++ Shoe.discardPile s ++ held)
    ≡ₚ seq base (52 * D * k) →
  nextId w = base + 52 * D * k →
  Shoe.deal s w = (Some c, s', w') →
  held' ≡ₚ held ++ [c] →
  Card.id <$> (Shoe.cards s' ++ Shoe.discardPile s' ++ held')
    ≡ₚ seq base (52 * D * (k + if exhausted s then 1 else 0))
  ∧ nextId w' = base + 52 * D * (k + if exhausted s then 1 else 0)
  ∧ Shoe.numberOfDecks s' = D.
Proof.
  intros Hdecks Hpool Hnext Hdeal Hheld.
  destruct (deal_spec s w) as (c0 & s0 & w0 & Hdeal0 & Hdecks' & Hspec);
    [lia|].
  rewrite Hdeal in Hdeal0. injection Hdeal0 as <- <- <-.
  assert (Shoe.cards s' ++ Shoe.discardPile s' ++ held'
          ≡ₚ (Shoe.cards s' ++ Shoe.discardPile s' ++ [c]) ++ held) as Hnew.
  { rewrite Hheld, <- !app_assoc.
    do 2 apply Permutation_app_head. apply Permutation_app_comm. }
  rewrite Hnew, fmap_app. clear Hnew.
  destruct (exhausted s) eqn:Hex.
  - apply exhausted_true in Hex as [Hcards Hdisc].
    destruct Hspec as [Hfresh Hnext'].
    rewrite Hcards, Hdisc in Hpool. cbn [app] in Hpool.
    rewrite Hfresh, Hpool, Hdecks, Hnext in *.
    split; [|split; [lia|congruence]].
    rewrite Permutation_app_comm.
    replace (52 * D * (k + 1)) with (52 * D * k + 52 * D) by lia.
    by rewrite seq_app.
  - destruct Hspec as [Hsame Hnext'].
    rewrite Nat.add_0_r. split; [|split; congruence].
    rewrite <- fmap_app, Hsame, <- Hpool. by rewrite <- !app_assoc.
Qed.

Lemma step_conserved k op st :
  conserved D base k st →
  Blackjack.rawDiscard op = false →
  conserved D base (k + if Blackjack.rebuildsShoe op st.1 then 1 else 0)
    (Blackjack.step op st).
Proof.
  destruct st as [g w]. unfold conserved. simpl.
  intros (Hpool & Hnext & Hdecks & Hindex) Hraw.
  destruct op; simpl in *; try done.
  - (* startRound *) by rewrite Nat.add_0_r.
  - (* endRound *) by rewrite Nat.add_0_r.
  - (* hit *)
    destruct (lookup_lt_is_Some_2 _ _ Hindex) as [hand Hhand].
    destruct (deal_spec (Blackjack.shoe g) w) as (c & s' & w' & Hdeal & _);
      [lia|].
    rewrite (hit_run g w _ hand c s' w' Hhand Hdeal).
    unfold Blackjack.pool, Blackjack.held in *. simpl.
    destruct (deal_conserved k (Blackjack.shoe g) w c s' w'
                (Hand.cards (Blackjack.dealerHand g)
                 ++ concat (Hand.cards <$> Blackjack.playerHands g))
                (Hand.cards (Blackjack.dealerHand g)
                 ++ concat (Hand.cards
                              <$> <[Blackjack.currentHandIndex g
                                    :=Hand.addCard c hand]>
                                    (Blackjack.playerHands g))))
      as (Hpool' & Hnext' & Hdecks'); try done.
    { rewrite (held_after_addCard _ c _ hand Hhand). by rewrite app_assoc. }
    split; [done|]. split; [done|]. split; [done|].
    rewrite length_insert. unfold nextHand.
    destruct (Hand.isBusted _); [|done].
    destruct (Nat.ltb_spec (Blackjack.currentHandIndex g)
                (length (Blackjack.playerHands g) - 1)); lia.
  - (* dealerPlay *)
    destruct (deal_spec (Blackjack.shoe g) w) as (c & s' & w' & Hdeal & _);
      [lia|].
    unfold Blackjack.dealerPlay, Blackjack.modify, mbind, Blackjack.M_bind.
    rewrite (dealCard_Some _ _ _ _ _ Hdeal).
    unfold Blackjack.pool, Blackjack.held in *. simpl.
    destruct (deal_conserved k (Blackjack.shoe g) w c s' w'
                (Hand.cards (Blackjack.dealerHand g)
                 ++ concat (Hand.cards <$> Blackjack.playerHands g))
                ((Hand.cards (Blackjack.dealerHand g) ++ [c])
                 ++ concat (Hand.cards <$> Blackjack.playerHands g)))
      as (Hpool' & Hnext' & Hdecks'); try done.
    rewrite <- !app_assoc. apply Permutation_app_head, Permutation_app_comm.
  - (* settleAllHands *)
    rewrite Nat.add_0_r.
    unfold Blackjack.pool, Blackjack.held in *. simpl.
    rewrite discardHands_spec. simpl.
    split; [|split; [done|split; [done|lia]]].
    rewrite <- Hpool, !app_nil_r. by rewrite <- !app_assoc.
Qed.

Lemma run_conserved ops : ∀ k st,
  conserved D base k st →
  forallb (λ op, negb (Blackjack.rawDiscard op)) ops = true →
  conserved D base (k + Blackjack.rebuilds ops st) (Blackjack.run ops st).
Proof.
  induction ops as [|op ops IH]; intros k st Hinv Hops; simpl in *.
  - by rewrite Nat.add_0_r.
  - apply andb_true_iff in Hops as [Hop Hops].
    apply negb_true_iff in Hop.
    rewrite Nat.add_assoc. apply IH; [|done].
    by apply step_conserved.
Qed.

End Conservation.

Section Pools.

Local Arguments Nat.mul : simpl never.

Lemma new_conserved D s17 surrenderOk startingChips w :
  conserved D (nextId w) 1 (Blackjack.new D s17 surrenderOk startingChips w).
Proof.
  unfold Blackjack.new.
  destruct (Shoe.new D w) as [s w'] eqn:Hnew.
  apply new_spec in Hnew as (Hids & Hs & Hnext & _).
  unfold conserved, Blackjack.pool, Blackjack.held. simpl.
  rewrite Hs. simpl. rewrite app_nil_r, Nat.mul_1_r.
  split; [done|]. split; [lia|]. split; [done|lia].
Qed.

(** C2, as the code has it.  Build a table on [D >= 1] decks and run any
    sequence of [startRound], [endRound], deals into the dealer hand or the
    current player hand, and [settleAllHands], the discard pile being fed by
    [settleAllHands] only.  Then the ids over the shoe, the discard pile and
    the hands are pairwise distinct, and the three pools hold
    [52 * D * (1 + r)] cards, [r] being the number of deals that found both
    the shoe and the discard pile empty and rebuilt the shoe from new
    decks: exactly [52 * D] as long as there was none. *)
Theorem pools_conserved D s17 surrenderOk startingChips w ops :
  1 ≤ D →
  forallb (λ op, negb (Blackjack.rawDiscard op)) ops = true →
  let st0 := Blackjack.new D s17 surrenderOk startingChips w in
  let g := (Blackjack.run ops st0).1 in
  NoDup (Card.id <$> Blackjack.pool g)
  ∧ length (Shoe.cards (Blackjack.shoe g))
    + length (Shoe.discardPile (Blackjack.shoe g))
    + length (Blackjack.held g)
    = 52 * D * (1 + Blackjack.rebuilds ops st0)
  ∧ (Blackjack.rebuilds ops st0 = 0 →
     length (Shoe.cards (Blackjack.shoe g))
     + length (Shoe.discardPile (Blackjack.shoe g))
     + length (Blackjack.held g)
     = 52 * D).
Proof.
  intros HD Hops st0 g.
  pose proof (run_conserved D (nextId w) HD ops 1 st0
                (new_conserved D s17 surrenderOk startingChips w) Hops)
    as (Hpool & _).
  fold g in Hpool.
  assert (length (Shoe.cards (Blackjack.shoe g))
          + length (Shoe.discardPile (Blackjack.shoe g))
          + length (Blackjack.held g)
          = 52 * D * (1 + Blackjack.rebuilds ops st0)) as Hcount.
  { apply Permutation_length in Hpool.
    rewrite length_fmap, length_seq in Hpool. rewrite <- Hpool.
    unfold Blackjack.pool. rewrite !length_app. lia. }
  split; [|split; [done|]].
  - rewrite Hpool. apply NoDup_seq.
  - intros Hnone. rewrite Hcount, Hnone. lia.
Qed.

Lemma pools_conserved_witness :
  let ops := [Blackjack.StartRound; Blackjack.Hit; Blackjack.DealerPlay;
              Blackjack.Hit; Blackjack.SettleAllHands; Blackjack.StartRound;
              Blackjack.DealerPlay] in
  1 ≤ 1
  ∧ forallb (λ op, negb (Blackjack.rawDiscard op)) ops = true
  ∧ NoDup (Card.id <$>
             Blackjack.pool
               (Blackjack.run ops
                  (Blackjack.new 1 true true 1000%Z world0)).1).
Proof.
  intros ops. split; [lia|]. split; [reflexivity|].
  apply (pools_conserved 1 true true 1000%Z world0 ops); [lia|reflexivity].
Defined.

(** C2, as stated, on the code.  One deck, and the dealer draws 53 cards
    in a row: the 53rd draw finds the shoe and the discard pile empty and
    rebuilds the shoe, so that 104 cards are around, not 52. *)
Lemma pool_count_after_rebuild :
  let g := (Blackjack.run (replicate 53 Blackjack.DealerPlay)
              (Blackjack.new 1 true true 1000%Z world0)).1 in
  length (Shoe.cards (Blackjack.shoe g))
  + length (Shoe.discardPile (Blackjack.shoe g))
  + length (Blackjack.held g) = 104
  ∧ length (Shoe.cards (Blackjack.shoe g))
    + length (Shoe.discardPile (Blackjack.shoe g))
    + length (Blackjack.held g) ≠ 52 * 1.
Proof. vm_compute. split; [reflexivity|discriminate]. Qed.

(** [addToDiscardPile] takes whatever it is given: handing it a card that
    is still in the shoe leaves 53 cards around, two of them with id 1. *)
Lemma pool_count_after_raw_discard :
  let g := (Blackjack.run
              [Blackjack.AddToDiscardPile
                 (Shoe.OneCard (Card.make Spades Ace 1))]
              (Blackjack.new 1 true true 1000%Z world0)).1 in
  length (Blackjack.pool g) = 53
  ∧ length (filter (λ c, Card.id c = 1) (Blackjack.pool g)) = 2.
Proof. vm_compute. done. Qed.

End Pools.

(** ** The theorems at concrete tables *)

Section Instances.

Import ScoringRule.

Lemma deal_always_returns_a_card_witness :
  let s := Shoe.mk [] [Card.make Spades Ace 7] 1 false false None in
  1 ≤ Shoe.numberOfDecks s
  ∧ ∃ c s' w', Shoe.deal s world0 = (Some c, s', w').
Proof.
  intros s. split; [simpl; lia|].
  destruct (deal_always_returns_a_card s world0)
    as (c & s' & w' & Hdeal & _); [simpl; lia|].
  by exists c, s', w'.
Defined.

Lemma shouldDealerHit_policy_witness :
  let g := dealerHolding
             (handOf [Card.make Spades Ace 1; Card.make Hearts Six 2]) false in
  Hand.getScore (Blackjack.dealerHand g) = 17
  ∧ (Blackjack.shouldDealerHit g = true
     ↔ isSoft (Blackjack.dealerHand g) ∧ Blackjack.standOnSoft17 g = false).
Proof.
  intros g. split; [reflexivity|].
  destruct shouldDealerHit_policy as [Hpolicy _].
  destruct (Hpolicy g) as (_ & Hseventeen & _).
  apply Hseventeen. reflexivity.
Defined.

Lemma isBlackjack_natural_only_witness :
  let h := handOf [Card.make Spades Seven 1; Card.make Hearts Seven 2;
                   Card.make Clubs Seven 3] in
  2 < length (Hand.cards h) ∧ Hand.isBlackjack h = false.
Proof.
  intros h. split; [simpl; lia|].
  destruct isBlackjack_natural_only as (_ & Hmore & _).
  apply Hmore. simpl. lia.
Defined.

Lemma split_contract_witness :
  let eights := handOf [Card.make Spades Eight 10; Card.make Clubs Eight 11] in
  let g := tableWith [eights] true in
  Blackjack.playerHands g !! 0 = Some eights
  ∧ 1 ≤ Shoe.numberOfDecks (Blackjack.shoe g)
  ∧ ∃ c1 c2 g' w' source newHand,
      Blackjack.split 0 g world0 = (Return tt, g', w')
      ∧ Blackjack.playerHands g' = [source; newHand]
      ∧ Hand.cards source = [Card.make Spades Eight 10; c2]
      ∧ Hand.cards newHand = [Card.make Clubs Eight 11; c1].
Proof.
  intros eights g. split; [reflexivity|]. split; [simpl; lia|].
  destruct (split_contract g world0 0 eights) as (_ & Hpair & _);
    [reflexivity | simpl; lia |].
  destruct (Hpair (Card.make Spades Eight 10) (Card.make Clubs Eight 11))
    as (c1 & s1 & w1 & c2 & s2 & w2 & g' & source & newHand
        & _ & _ & Hsplit & _ & Hhands & Hsource & Hnew & _);
    [reflexivity | reflexivity |].
  exists c1, c2, g', w2, source, newHand. done.
Defined.

Lemma double_contract_witness :
  let eleven := handOf [Card.make Spades Five 10; Card.make Clubs Six 11] in
  let g := tableWith [eleven] true in
  Blackjack.playerHands g !! 0 = Some eleven
  ∧ 1 ≤ Shoe.numberOfDecks (Blackjack.shoe g)
  ∧ length (Hand.cards eleven) = 2
  ∧ ∃ c g' w' hand',
      Blackjack.double 0 g world0 = (Return tt, g', w')
      ∧ Blackjack.playerHands g' = [hand']
      ∧ Hand.cards hand' = Hand.cards eleven ++ [c].
Proof.
  intros eleven g. split; [reflexivity|]. split; [simpl; lia|].
  split; [reflexivity|].
  destruct (double_contract g world0 0 eleven) as (_ & Hgo);
    [reflexivity | simpl; lia |].
  destruct Hgo as (c & s' & w' & g' & hand' & _ & Hdouble & _ & Hhands
                   & Hcards & _); [reflexivity|].
  exists c, g', w', hand'. done.
Defined.

Lemma surrender_contract_witness :
  let sixteen := handOf [Card.make Spades Ten 10; Card.make Clubs Six 11] in
  let g := tableWith [sixteen] true in
  Blackjack.playerHands g !! 0 = Some sixteen
  ∧ Blackjack.allowSurrender g = true
  ∧ length (Hand.cards sixteen) ≤ 2
  ∧ ∃ g', Blackjack.surrender 0 g world0 = (Return tt, g', world0).
Proof.
  intros sixteen g. split; [reflexivity|]. split; [reflexivity|].
  split; [simpl; lia|].
  destruct (surrender_contract g world0 0 sixteen) as (_ & Hgo);
    [reflexivity|].
  destruct Hgo as (g' & Hsurrender & _); [reflexivity | simpl; lia |].
  by exists g'.
Defined.

Lemma failed_action_changes_nothing_witness :
  let g := tableWith
             [handOf [Card.make Spades Ten 10; Card.make Clubs Six 11;
                      Card.make Hearts Two 12]] true in
  Blackjack.surrender 0 g world0 = (Throw SurrenderInitialOnly, g, world0)
  ∧ Blackjack.double 0 g world0 = (Throw DoubleInitialOnly, g, world0)
  ∧ Blackjack.split 0 g world0 = (Throw SplitIdenticalOnly, g, world0)
  ∧ (g = g ∧ world0 = world0).
Proof.
  intros g. split; [reflexivity|]. split; [reflexivity|].
  split; [reflexivity|].
  destruct (failed_action_changes_nothing g world0 0 g world0)
    as (_ & Hsurrender & _).
  apply Hsurrender. reflexivity.
Defined.

End Instances.

(** * Further properties of the engine *)

(** ** More on scoring *)

Section ScoringFacts.

Import ScoringRule.

Lemma total_split cs : total cs = nonAceTotal cs + 11 * aceCount cs.
Proof.
  induction cs as [|c cs IH]; [done|].
  rewrite total_cons, nonAceTotal_cons, aceCount_cons, IH.
  case_decide as Hc; [rewrite (getValue_Ace _ Hc)|]; lia.
Qed.

Lemma hardTotal_split cs : hardTotal cs = nonAceTotal cs + aceCount cs.
Proof. unfold hardTotal. rewrite total_split. lia. Qed.

Lemma hardTotal_snoc cs c : hardTotal cs + 1 ≤ hardTotal (cs ++ [c]).
Proof.
  rewrite !hardTotal_split. unfold nonAceTotal, aceCount.
  rewrite !filter_app, fmap_app, sum_list_with_app, length_app.
  destruct (decide (Card.rank c = Ace)) as [Hc|Hc].
  - rewrite (filter_cons_True (λ c, Card.rank c = Ace)) by done.
    simpl. lia.
  - rewrite (filter_cons_True (λ c, Card.rank c ≠ Ace)) by done.
    simpl. unfold Card.getValue. destruct (Card.rank c); try done; lia.
Qed.

Lemma getScore_hardTotal h :
  hardTotal (Hand.cards h) ≤ Hand.getScore h
  ∧ (21 < Hand.getScore h → Hand.getScore h = hardTotal (Hand.cards h)).
Proof.
  rewrite getScore_unfold. unfold hardTotal.
  destruct (downgrade_least (aceCount (Hand.cards h)) (total (Hand.cards h)))
    as (k & Hk & Hle & -> & Hstop & _).
  split; [lia|]. intros Hbust. destruct Hstop as [?| ->]; [lia|done].
Qed.

(** A hand is busted exactly when it exceeds 21 with every Ace counted as
    1; so no further card can bring a busted hand back. *)
Theorem busted_is_hard_and_final (h : Hand.t) :
  (Hand.isBusted h = true ↔ 21 < hardTotal (Hand.cards h))
  ∧ ∀ c, Hand.isBusted h = true → Hand.isBusted (Hand.addCard c h) = true.
Proof.
  assert (∀ h, Hand.isBusted h = true ↔ 21 < hardTotal (Hand.cards h)) as Hiff.
  { intros h0. unfold Hand.isBusted. rewrite Nat.ltb_lt.
    destruct (getScore_hardTotal h0) as [Hle Heq].
    split; [intros Hb; rewrite <- (Heq Hb); done | lia]. }
  split; [apply Hiff|].
  intros c Hb. apply Hiff. apply Hiff in Hb.
  pose proof (hardTotal_snoc (Hand.cards h) c). simpl. lia.
Qed.

Lemma busted_is_hard_and_final_witness :
  let h := handOf [Card.make Spades Ten 1; Card.make Hearts King 2;
                   Card.make Clubs Two 3] in
  Hand.isBusted h = true
  ∧ Hand.isBusted (Hand.addCard (Card.make Diamonds Ace 4) h) = true.
Proof.
  intros h. split; [reflexivity|].
  destruct (busted_is_hard_and_final h) as [_ Hfinal].
  apply Hfinal. reflexivity.
Defined.

(** The score of a hand does not depend on the order of its cards, and
    neither does its being a blackjack. *)
Theorem getScore_any_order (h h' : Hand.t) :
  Hand.cards h ≡ₚ Hand.cards h' →
  Hand.getScore h = Hand.getScore h'
  ∧ Hand.isBusted h = Hand.isBusted h'
  ∧ Hand.isBlackjack h = Hand.isBlackjack h'.
Proof.
  intros Hperm.
  assert (Hand.getScore h = Hand.getScore h') as Hscore.
  { rewrite !getScore_unfold. unfold total, aceCount. by rewrite Hperm. }
  unfold Hand.isBusted, Hand.isBlackjack.
  rewrite Hscore, (Permutation_length Hperm). done.
Qed.

Lemma getScore_any_order_witness :
  let h := handOf [Card.make Spades Ace 1; Card.make Hearts Nine 2;
                   Card.make Clubs Five 3] in
  let h' := handOf [Card.make Clubs Five 3; Card.make Spades Ace 1;
                    Card.make Hearts Nine 2] in
  Hand.cards h ≡ₚ Hand.cards h' ∧ Hand.getScore h = Hand.getScore h'.
Proof.
  intros h h'.
  assert (Hand.cards h ≡ₚ Hand.cards h') as Hperm.
  { simpl. symmetry. apply (Permutation_cons_append [_; _]). }
  split; [exact Hperm|]. by apply getScore_any_order.
Defined.

(** A blackjack is an Ace with a card worth ten, in either order, and
    nothing else. *)
Theorem isBlackjack_ace_and_ten (h : Hand.t) :
  Hand.isBlackjack h = true
  ↔ ∃ a b, Hand.cards h = [a; b]
      ∧ ((Card.rank a = Ace ∧ Card.getValue b = 10)
         ∨ (Card.getValue a = 10 ∧ Card.rank b = Ace)).
Proof.
  unfold Hand.isBlackjack, Hand.getScore.
  destruct (Hand.cards h) as [|a [|b [|c cs]]]; simpl.
  - split; [done|]. by intros (? & ? & ? & _).
  - split; [done|]. by intros (? & ? & ? & _).
  - unfold Card.getValue.
    destruct a as [sa ra ca ia], b as [sb rb cb ib]. simpl. split.
    + intros Hbj. exists (Card.mk sa ra ca ia), (Card.mk sb rb cb ib).
      split; [done|]. simpl.
      destruct ra, rb; simpl in Hbj; try done; auto.
    + intros (a & b & [= <- <-] & Hranks). simpl in Hranks.
      destruct Hranks as [[-> Hten]|[Hten ->]];
        [destruct rb | destruct ra]; simpl in *; done.
  - split; [done|]. by intros (? & ? & ? & _).
Qed.

(** At a score of 17, with fewer than eleven Aces in the hand, the dealer
    hits exactly when an Ace still counts as 11 (the total with Aces as 1 is
    below 17) and the table does not stand on soft 17.  Eleven Aces and a Six
    make 17 with every Ace as 1, and there the dealer hits all the same. *)
Theorem soft17_is_an_ace_at_eleven :
  (∀ g : Blackjack.t,
     Hand.getScore (Blackjack.dealerHand g) = 17 →
     aceCount (Hand.cards (Blackjack.dealerHand g)) ≤ 10 →
     (Blackjack.shouldDealerHit g = true
      ↔ hardTotal (Hand.cards (Blackjack.dealerHand g)) < 17
        ∧ Blackjack.standOnSoft17 g = false))
  ∧ (let h := handOf (replicate 11 (Card.make Spades Ace 1)
                      ++ [Card.make Hearts Six 2]) in
     Hand.getScore h = 17
     ∧ hardTotal (Hand.cards h) = 17
     ∧ Blackjack.shouldDealerHit (dealerHolding h false) = true).
Proof.
  split; [|by vm_compute].
  intros g Hscore Haces. unfold Blackjack.shouldDealerHit.
  rewrite Hscore, softness_total.
  change (17 <? 17) with false. change (17 =? 17) with true. cbv iota.
  rewrite !Nat.add_0_l.
  rewrite !andb_true_iff, Nat.ltb_lt, Nat.leb_le, negb_true_iff.
  set (cs := Hand.cards (Blackjack.dealerHand g)) in *.
  rewrite hardTotal_split.
  assert (0 < aceCount cs ∧ nonAceTotal cs ≤ 6
          ↔ nonAceTotal cs + aceCount cs < 17) as Hsoft; [|by rewrite Hsoft].
  rewrite getScore_unfold in Hscore. fold cs in Hscore.
  destruct (downgrade_least (aceCount cs) (total cs))
    as (k & Hk & Hle & Heq & Hstop & Hmin).
  rewrite Heq, total_split in Hscore. rewrite total_split in Hle.
  lia.
Qed.

Lemma soft17_is_an_ace_at_eleven_witness :
  let g := dealerHolding
             (handOf [Card.make Spades Ace 1; Card.make Clubs Ace 2;
                      Card.make Hearts Five 3]) false in
  Hand.getScore (Blackjack.dealerHand g) = 17
  ∧ aceCount (Hand.cards (Blackjack.dealerHand g)) ≤ 10
  ∧ (Blackjack.shouldDealerHit g = true
     ↔ hardTotal (Hand.cards (Blackjack.dealerHand g)) < 17
       ∧ Blackjack.standOnSoft17 g = false).
Proof.
  intros g. split; [reflexivity|]. split; [vm_compute; lia|].
  destruct soft17_is_an_ace_at_eleven as [Hsoft _].
  apply Hsoft; [reflexivity | vm_compute; lia].
Defined.

End ScoringFacts.

(** ** Building and shuffling the shoe *)

Section Building.

Implicit Types s : Shoe.t.
Implicit Types w : World.

(** A new deck is the 52 combinations of suit and rank, each once, every
    card as its constructor makes it (Hearts and Diamonds red, the others
    black), numbered in order from the id counter, which moves on by 52;
    nothing else in the world changes. *)
Theorem Deck_new_complete w :
  let cs := (Deck.new w).1 in
  let w' := (Deck.new w).2 in
  length cs = 52
  ∧ Card.id <$> cs = seq (nextId w) 52
  ∧ (∀ su r, copies su r cs = 1)
  ∧ Forall (λ c, c = Card.make (Card.suit c) (Card.rank c) (Card.id c)) cs
  ∧ w' = mkWorld (52 + nextId w) (rng w) (draws w) (notices w).
Proof.
  destruct w as [n r d ns]. cbv zeta.
  split; [by vm_compute|]. split; [by vm_compute|].
  split; [intros [] []; by vm_compute|].
  split; [|by vm_compute].
  vm_compute. repeat (apply Forall_cons; split; [reflexivity|]).
  constructor.
Qed.

Lemma Deck_new_copies w cs w' su r :
  Deck.new w = (cs, w') → copies su r cs = 1.
Proof.
  intros Hdeck. destruct (Deck_new_complete w) as (_ & _ & Hcopies & _).
  rewrite Hdeck in Hcopies. apply Hcopies.
Qed.

Lemma copies_app su r cs1 cs2 :
  copies su r (cs1 ++ cs2) = copies su r cs1 + copies su r cs2.
Proof. unfold copies. by rewrite filter_app, length_app. Qed.

Lemma copies_Permutation su r cs1 cs2 :
  cs1 ≡ₚ cs2 → copies su r cs1 = copies su r cs2.
Proof. unfold copies. by intros ->. Qed.

Lemma pushDecks_copies su r n : ∀ cs w cs' w',
  Shoe.pushDecks n cs w = (cs', w') →
  copies su r cs' = copies su r cs + n.
Proof.
  induction n as [|n IH]; intros cs w cs' w'; cbn [Shoe.pushDecks].
  - intros [= <- <-]. lia.
  - destruct (Deck.new w) as [deck w1] eqn:Hdeck.
    intros Hpush. apply IH in Hpush.
    rewrite Hpush, copies_app, (Deck_new_copies _ _ _ su r Hdeck). lia.
Qed.

Lemma shuffleFrom_draws i : ∀ cs w cs' w',
  Shoe.shuffleFrom i cs w = (cs', w') →
  length cs' = length cs
  ∧ w' = mkWorld (nextId w) (rng w) (draws w + i) (notices w).
Proof.
  induction i as [|i IH]; intros cs w cs' w'; simpl.
  - intros [= <- <-]. rewrite Nat.add_0_r. by destruct w.
  - intros Hrun. apply IH in Hrun as [Hlen ->]. simpl.
    split; [|f_equal; lia].
    rewrite Hlen. apply Permutation_length, swap_Permutation.
Qed.

(** [shuffle] rearranges [cards] and does nothing else to the shoe; in the
    world it only consumes random numbers, one per card but the first.  A
    shoe of at most one card is left as it is. *)
Theorem shuffle_rearranges s w :
  let s' := (Shoe.shuffle s w).1 in
  let w' := (Shoe.shuffle s w).2 in
  Shoe.cards s' ≡ₚ Shoe.cards s
  ∧ s' = Shoe.setCards (Shoe.cards s') s
  ∧ w' = mkWorld (nextId w) (rng w)
           (draws w + (length (Shoe.cards s) - 1)) (notices w)
  ∧ (length (Shoe.cards s) ≤ 1 → s' = s).
Proof.
  cbv zeta.
  destruct (Shoe.shuffle s w) as [s' w'] eqn:Hshuffle. simpl.
  pose proof (shuffle_spec _ _ _ _ Hshuffle) as (Hperm & Hs' & _).
  unfold Shoe.shuffle in Hshuffle.
  destruct (Shoe.shuffleFrom _ _ _) as [cs w1] eqn:Hrun.
  injection Hshuffle as <- <-.
  pose proof (shuffleFrom_draws _ _ _ _ _ Hrun) as [_ Hw].
  split; [done|]. split; [done|]. split; [done|].
  intros Hshort.
  replace (length (Shoe.cards s) - 1) with 0 in Hrun by lia.
  simpl in Hrun. injection Hrun as <- <-. by destruct s.
Qed.

Lemma shuffle_rearranges_witness :
  let s := Shoe.mk [Card.make Spades Ace 1] [] 1 false false None in
  length (Shoe.cards s) ≤ 1 ∧ (Shoe.shuffle s world0).1 = s.
Proof.
  intros s. split; [simpl; lia|].
  destruct (shuffle_rearranges s world0) as (_ & _ & _ & Hshort).
  apply Hshort. simpl. lia.
Defined.

(** A new shoe of [n] decks holds [52 * n] cards with pairwise distinct
    ids, the next [52 * n] of the id counter, and every combination of suit
    and rank exactly [n] times; its discard pile is empty, no round is open
    and no end of shoe has been announced. *)
Theorem Shoe_new_stocked n w :
  let s := (Shoe.new n w).1 in
  let w' := (Shoe.new n w).2 in
  length (Shoe.cards s) = 52 * n
  ∧ NoDup (Card.id <$> Shoe.cards s)
  ∧ Card.id <$> Shoe.cards s ≡ₚ seq (nextId w) (52 * n)
  ∧ (∀ su r, copies su r (Shoe.cards s) = n)
  ∧ s = Shoe.mk (Shoe.cards s) [] n false false None
  ∧ nextId w' = 52 * n + nextId w
  ∧ notices w' = notices w.
Proof.
  cbv zeta. destruct (Shoe.new n w) as [s w'] eqn:Hnew. simpl.
  pose proof (new_spec _ _ _ _ Hnew) as (Hids & Hs & Hnext & Hlog).
  split.
  { apply Permutation_length in Hids.
    by rewrite length_fmap, length_seq in Hids. }
  split; [rewrite Hids; apply NoDup_seq|]. split; [done|].
  split; [|done].
  intros su r. unfold Shoe.new, Shoe.initializeShoe in Hnew.
  destruct (Shoe.pushDecks _ _ _) as [cs w1] eqn:Hpush.
  destruct (Shoe.shuffle _ _) as [s2 w2] eqn:Hshuffle.
  injection Hnew as <- <-.
  apply shuffle_spec in Hshuffle as (Hperm & _ & _).
  apply (pushDecks_copies su r) in Hpush. simpl in *.
  by rewrite (copies_Permutation _ _ _ _ Hperm), Hpush.
Qed.

End Building.

(** ** More on dealing *)

Section DealingFacts.

Implicit Types s : Shoe.t.
Implicit Types w : World.

Lemma maxAttempts_enough n : n < Nat.max 10 (n + 5).
Proof. lia. Qed.

(** The search loop over a run of duplicates with a fresh card below. *)
Lemma search_skips dups : ∀ fuel s below c dealt,
  length dups < fuel →
  Shoe.cards s = below ++ c :: dups →
  Shoe.currentRoundDealt s = Some dealt →
  Card.id c ∉ dealt →
  (∀ d, d ∈ dups → Card.id d ∈ dealt) →
  Shoe.search fuel s
  = (Some c,
     Shoe.setCurrentRoundDealt (Some ({[Card.id c]} ∪ dealt))
       (Shoe.setDiscardPile (Shoe.discardPile s ++ reverse dups)
          (Shoe.setCards below s))).
Proof.
  induction dups as [|d dups IH] using rev_ind;
    intros fuel s below c dealt Hfuel Hcards Hround Hfresh Hdups.
  - destruct fuel as [|fuel]; [simpl in Hfuel; lia|].
    cbn [Shoe.search]. rewrite Hcards.
    rewrite (pop_app below c).
    cbn [Shoe.currentRoundDealt Shoe.setCards]. rewrite Hround.
    rewrite decide_False by done. simpl. rewrite app_nil_r.
    destruct s; simpl in *. done.
  - destruct fuel as [|fuel]; [simpl in Hfuel; lia|].
    rewrite length_app in Hfuel. simpl in Hfuel.
    cbn [Shoe.search]. rewrite Hcards.
    replace (below ++ c :: dups ++ [d]) with ((below ++ c :: dups) ++ [d])
      by (by rewrite <- app_assoc).
    rewrite pop_app.
    cbn [Shoe.currentRoundDealt Shoe.setCards]. rewrite Hround.
    rewrite decide_True
      by (apply Hdups; rewrite elem_of_app, list_elem_of_singleton; auto).
    erewrite (IH fuel _ below c dealt); [|lia|done|done|done|].
    + rewrite reverse_snoc. simpl. by rewrite <- app_assoc.
    + intros d' Hd'. apply Hdups. rewrite elem_of_app. auto.
Qed.

(** Duplicate avoidance.  In an open round, as long as [cards] holds a card
    not yet dealt this round, [deal] returns the topmost such card: the
    duplicates above it go to the discard pile, top first, the card is
    recorded as dealt, and the world is not touched. *)
Theorem deal_skips_duplicates s w below c dups dealt :
  Shoe.cards s = below ++ c :: dups →
  Shoe.currentRoundDealt s = Some dealt →
  Card.id c ∉ dealt →
  (∀ d, d ∈ dups → Card.id d ∈ dealt) →
  Shoe.deal s w
  = (Some c,
     Shoe.setCurrentRoundDealt (Some ({[Card.id c]} ∪ dealt))
       (Shoe.setDiscardPile (Shoe.discardPile s ++ reverse dups)
          (Shoe.setCards below s)),
     w).
Proof.
  intros Hcards Hround Hfresh Hdups. unfold Shoe.deal.
  assert (length (Shoe.cards s) = S (length below + length dups)) as Hlen
    by (rewrite Hcards, length_app; simpl; lia).
  rewrite Hlen. cbn [Nat.eqb]. rewrite Hlen.
  rewrite (search_skips dups _ s below c dealt); try done.
  pose proof (maxAttempts_enough (S (length below + length dups))). lia.
Qed.

Lemma deal_skips_duplicates_witness :
  let seen := Card.make Spades Ace 7 in
  let fresh := Card.make Hearts Nine 8 in
  let s := Shoe.mk [fresh; seen] [] 1 false false (Some {[7]}) in
  Shoe.cards s = [] ++ fresh :: [seen]
  ∧ Shoe.deal s world0
    = (Some fresh,
       Shoe.setCurrentRoundDealt (Some ({[8]} ∪ {[7]}))
         (Shoe.setDiscardPile [seen] (Shoe.setCards [] s)),
       world0).
Proof.
  intros seen fresh s. split; [reflexivity|].
  apply (deal_skips_duplicates s world0 [] fresh [seen] {[7]}).
  - reflexivity.
  - reflexivity.
  - simpl. set_solver.
  - intros d Hd. apply list_elem_of_singleton in Hd as ->. simpl. set_solver.
Defined.

(** What the search loop does to the round's record. *)
Lemma search_record fuel : ∀ s r s',
  Shoe.search fuel s = (r, s') →
  Shoe.currentRoundDealt s'
  = match r with
    | Some c => (λ dealt, {[Card.id c]} ∪ dealt) <$> Shoe.currentRoundDealt s
    | None => Shoe.currentRoundDealt s
    end.
Proof.
  induction fuel as [|fuel IH]; intros s r s'; cbn [Shoe.search].
  - by intros [= <- <-].
  - destruct (pop (Shoe.cards s)) as [[rest card]|]; [|by intros [= <- <-]].
    cbn [Shoe.currentRoundDealt Shoe.setCards].
    destruct (Shoe.currentRoundDealt s) as [dealt|] eqn:Hround.
    + case_decide.
      * intros Hrun. apply IH in Hrun. simpl in Hrun. by rewrite Hround in Hrun.
      * intros [= <- <-]. simpl. done.
    + intros [= <- <-]. simpl. by rewrite Hround.
Qed.

Lemma initializeShoe_record s w :
  Shoe.currentRoundDealt (Shoe.initializeShoe s w).1 = Shoe.currentRoundDealt s.
Proof.
  destruct (Shoe.initializeShoe s w) as [s' w'] eqn:Hinit.
  apply initializeShoe_spec in Hinit as (_ & -> & _). done.
Qed.

Lemma recycle_record s w :
  Shoe.currentRoundDealt (Shoe.recycle s w).1 = Shoe.currentRoundDealt s.
Proof.
  destruct (Shoe.recycle s w) as [s' w'] eqn:Hrec.
  apply recycle_spec in Hrec as (_ & -> & _). done.
Qed.

Lemma alertEndOfShoe_record n s w :
  Shoe.currentRoundDealt (Shoe.alertEndOfShoe n s w).1
  = Shoe.currentRoundDealt s.
Proof. unfold Shoe.alertEndOfShoe. by destruct (_ && _). Qed.

(** In an open round [deal] records the id of the card it returns, whichever
    way it found it, and nothing else; with no round open it opens none. *)
Theorem deal_records_what_it_returns s w :
  let '(r, s', _) := Shoe.deal s w in
  Shoe.currentRoundDealt s'
  = match r with
    | Some c => (λ dealt, {[Card.id c]} ∪ dealt) <$> Shoe.currentRoundDealt s
    | None => Shoe.currentRoundDealt s
    end.
Proof.
  unfold Shoe.deal.
  change (if length (Shoe.cards s) =? 0
          then (if length (Shoe.discardPile s) =? 0
                then Shoe.initializeShoe s w
                else Shoe.recycle s w)
          else (s, w)) with (refill s w).
  assert (Shoe.currentRoundDealt (refill s w).1 = Shoe.currentRoundDealt s)
    as Hrefill.
  { unfold refill. destruct (_ =? 0); [|done].
    destruct (_ =? 0); [apply initializeShoe_record | apply recycle_record]. }
  destruct (refill s w) as [s1 w1]. simpl in Hrefill.
  destruct (Shoe.search _ s1) as [[c|] s2] eqn:Hsearch;
    apply search_record in Hsearch; [congruence|].
  set (st3 := if length (Shoe.cards s2) =? 0
              then (if 0 <? length (Shoe.discardPile s2)
                    then Shoe.recycle s2 w1
                    else Shoe.initializeShoe s2 w1)
              else (s2, w1)).
  assert (Shoe.currentRoundDealt st3.1 = Shoe.currentRoundDealt s) as H3.
  { subst st3. destruct (_ =? 0); [|simpl; congruence].
    destruct (0 <? _);
      [rewrite recycle_record | rewrite initializeShoe_record]; congruence. }
  destruct st3 as [s3 w3]. simpl in H3.
  destruct (pop (Shoe.cards s3)) as [[rest card]|].
  - cbn [Shoe.currentRoundDealt Shoe.setCards]. rewrite H3.
    pose proof (alertEndOfShoe_record (length (Shoe.cards s1))
                  match Shoe.currentRoundDealt s with
                  | Some dealt =>
                      Shoe.setCurrentRoundDealt
                        (Some ({[Card.id card]} ∪ dealt)) (Shoe.setCards rest s3)
                  | None => Shoe.setCards rest s3
                  end w3) as Halert.
    destruct (Shoe.alertEndOfShoe _ _ w3) as [s6 w6]. simpl in Halert.
    rewrite Halert. destruct (Shoe.currentRoundDealt s); simpl; [done|].
    done.
  - pose proof (alertEndOfShoe_record (length (Shoe.cards s1))
                  match Shoe.currentRoundDealt s3 with
                  | Some _ | _ => s3
                  end w3) as Halert.
    destruct (Shoe.alertEndOfShoe _ _ w3) as [s6 w6]. simpl in Halert.
    rewrite Halert. destruct (Shoe.currentRoundDealt s3) eqn:E; congruence.
Qed.

End DealingFacts.

Section Notification.

Implicit Types s : Shoe.t.
Implicit Types w : World.

(** With two or more cards in [cards], [deal] announces nothing. *)
Lemma deal_quiet s w :
  2 ≤ length (Shoe.cards s) →
  let '(_, s', w') := Shoe.deal s w in
  notices w' = notices w ∧ Shoe._endAlerted s' = Shoe._endAlerted s.
Proof.
  intros Hlen. unfold Shoe.deal.
  destruct (length (Shoe.cards s)) as [|[|m]] eqn:Hm; [lia..|].
  cbn [Nat.eqb]. rewrite Hm.
  destruct (Shoe.search _ s) as [[c|] s2] eqn:Hsearch;
    apply search_spec in Hsearch as (Hperm & (_ & _ & Halerted) & Hempty);
    [done|].
  assert (Shoe.cards s2 = []) as Hc2.
  { apply Hempty; [done|]. rewrite Hm.
    pose proof (maxAttempts_enough (S (S m))). lia. }
  rewrite Hc2 in *. simpl in Hperm. rewrite app_nil_r in Hperm.
  destruct (Shoe.discardPile s2) as [|d ds] eqn:Hd2.
  { apply Permutation_length in Hperm. rewrite length_app, Hm in Hperm.
    simpl in Hperm. lia. }
  cbn [length Nat.eqb Nat.ltb Nat.leb].
  destruct (Shoe.recycle s2 w) as [s3 w3] eqn:Hrec.
  apply recycle_spec in Hrec as (_ & Hs3 & [_ Hlog]).
  unfold Shoe.alertEndOfShoe. cbn [Nat.eqb andb].
  destruct (pop (Shoe.cards s3)) as [[rest card]|];
    cbn [Shoe.currentRoundDealt Shoe.setCards];
    destruct (Shoe.currentRoundDealt s3); rewrite Hs3; simpl; done.
Qed.

(** The end-of-shoe notification, as [deal] gives it from a non-empty
    [cards] with [c] on top: it fires exactly when [c] is the only card
    left, [c] was already dealt this round, and no end of shoe has been
    announced since the shoe was last rebuilt; it then calls the hook if one
    is set, else gives the default notice, once, and sets [_endAlerted].
    In every other case nothing is announced and [_endAlerted] stays. *)
Theorem notification_rule s w rest c :
  Shoe.cards s = rest ++ [c] →
  let '(_, s', w') := Shoe.deal s w in
  notices w'
  = (if fires s c
     then notices w ++ [if Shoe.onEndOfShoe s then HookCalled else DefaultNotice]
     else notices w)
  ∧ Shoe._endAlerted s' = (fires s c || Shoe._endAlerted s).
Proof.
  intros Hcards. unfold fires.
  destruct rest as [|b rest].
  - destruct (Shoe.currentRoundDealt s) as [dealt|] eqn:Hround.
    + destruct (decide (Card.id c ∈ dealt)) as [Hdup|Hfresh].
      * rewrite (bool_decide_eq_true_2 _ Hdup), andb_true_r.
        destruct s as [cs ds n hook alerted crd]. simpl in *. subst cs crd.
        unfold Shoe.deal. simpl. rewrite (decide_True _ _ Hdup). simpl.
        rewrite length_app, Nat.add_1_r. cbn [Nat.eqb Nat.ltb Nat.leb].
        destruct (Shoe.recycle _ w) as [s3 w3] eqn:Hrec.
        apply recycle_spec in Hrec as (Hp3 & Hs3 & [_ Hlog]). simpl in *.
        destruct (pop_nonempty (Shoe.cards s3)) as (rest & c' & -> & _).
        { intros Hnil. rewrite Hnil in Hp3. symmetry in Hp3.
          apply Permutation_nil_r in Hp3. by destruct ds. }
        rewrite Hs3. simpl. unfold Shoe.alertEndOfShoe. simpl.
        destruct alerted; simpl; [done|]. by rewrite Hlog.
      * rewrite (bool_decide_eq_false_2 _ Hfresh), andb_false_r.
        rewrite (deal_top_fresh s w [] c dealt Hcards Hround Hfresh). done.
    + rewrite andb_false_r.
      rewrite (deal_top_no_round s w [] c Hcards Hround). done.
  - assert (2 ≤ length (Shoe.cards s)) as Hlen
      by (rewrite Hcards, length_app; simpl; lia).
    pose proof (deal_quiet s w Hlen) as Hquiet.
    destruct (Shoe.deal s w) as [[r s'] w'].
    replace (length (Shoe.cards s) =? 1) with false
      by (symmetry; apply Nat.eqb_neq; lia).
    done.
Qed.

Lemma notification_rule_witness :
  let last := Card.make Spades Ace 7 in
  let s := Shoe.mk [last] [] 1 true false (Some {[7]}) in
  Shoe.cards s = [] ++ [last]
  ∧ fires s last = true
  ∧ notices (Shoe.deal s world0).2 = [HookCalled].
Proof.
  intros last s. split; [reflexivity|]. split; [by vm_compute|].
  pose proof (notification_rule s world0 [] last eq_refl) as Hrule.
  destruct (Shoe.deal s world0) as [[r s'] w']. simpl.
  destruct Hrule as [-> _]. by vm_compute.
Defined.

End Notification.

(** ** Rounds *)

Section Rounds.

Implicit Types g : Blackjack.t.
Implicit Types w : World.

Ltac run_bind := unfold mbind, Blackjack.M_bind; cbn beta iota.

(** [settleAllHands] never throws.  It appends to the discard pile the
    dealer's cards and then the cards of each player hand, in order, leaves
    [cards] alone, closes the round and puts fresh hands on the table.
    Settling again right away changes nothing more. *)
Theorem settleAllHands_retires_hands g w :
  ∃ g',
    Blackjack.settleAllHands g w = (Return tt, g', w)
    ∧ Shoe.discardPile (Blackjack.shoe g')
      = Shoe.discardPile (Blackjack.shoe g) ++ Blackjack.held g
    ∧ Shoe.cards (Blackjack.shoe g') = Shoe.cards (Blackjack.shoe g)
    ∧ Shoe.currentRoundDealt (Blackjack.shoe g') = None
    ∧ Blackjack.dealerHand g' = Hand.new
    ∧ Blackjack.playerHands g' = [Hand.new]
    ∧ Blackjack.currentHandIndex g' = 0
    ∧ Blackjack.chips g' = Blackjack.chips g
    ∧ Blackjack.settleAllHands g' w = (Return tt, g', w).
Proof.
  eexists. split; [reflexivity|].
  split.
  { unfold Blackjack.held. simpl. rewrite discardHands_spec. simpl.
    by rewrite app_assoc. }
  split; [simpl; by rewrite discardHands_spec|].
  do 5 (split; [done|]).
  unfold Blackjack.settleAllHands, Blackjack.modify. simpl.
  rewrite !discardHands_spec. simpl. by rewrite !app_nil_r.
Qed.

Lemma dealInitialCards_run g w c1 s1 w1 c2 s2 w2 c3 s3 w3 c4 s4 w4 :
  Shoe.deal (Shoe.startRound (Blackjack.shoe g)) w = (Some c1, s1, w1) →
  Shoe.deal s1 w1 = (Some c2, s2, w2) →
  Shoe.deal s2 w2 = (Some c3, s3, w3) →
  Shoe.deal s3 w3 = (Some c4, s4, w4) →
  Blackjack.dealInitialCards g w
  = (Return tt,
     Blackjack.mk s4 (Blackjack.standOnSoft17 g) (Blackjack.allowSurrender g)
       (handOf [c2; c4]) [handOf [c1; c3]] 0
       (Blackjack.numberOfDecks g) (Blackjack.chips g),
     w4).
Proof.
  intros H1 H2 H3 H4.
  unfold Blackjack.dealInitialCards, Blackjack.modify, Blackjack.putHand,
    Blackjack.modify, Blackjack.theHand, Blackjack.dealCard. run_bind.
  simpl. rewrite H1. simpl. rewrite H2. simpl. rewrite H3. simpl.
  rewrite H4. done.
Qed.

(** On a shoe of at least one deck [dealInitialCards] never throws: it opens
    a round and deals four cards in a row, the first and third to a single
    new player hand and the second and fourth to a new dealer hand.  The
    hands that were on the table are replaced, not discarded. *)
Theorem dealInitialCards_two_each g w :
  1 ≤ Shoe.numberOfDecks (Blackjack.shoe g) →
  ∃ c1 c2 c3 c4 g' w',
    Blackjack.dealInitialCards g w = (Return tt, g', w')
    ∧ Shoe.dealMany 4 (Shoe.startRound (Blackjack.shoe g)) w
      = ([Some c1; Some c2; Some c3; Some c4], Blackjack.shoe g', w')
    ∧ Blackjack.playerHands g' = [handOf [c1; c3]]
    ∧ Blackjack.dealerHand g' = handOf [c2; c4]
    ∧ Blackjack.currentHandIndex g' = 0
    ∧ Shoe.currentRoundDealt (Blackjack.shoe g')
      = Some ({[Card.id c4]} ∪ ({[Card.id c3]} ∪ ({[Card.id c2]}
                ∪ ({[Card.id c1]} ∪ ∅)))).
Proof.
  intros Hdecks.
  destruct (deal_spec (Shoe.startRound (Blackjack.shoe g)) w)
    as (c1 & s1 & w1 & H1 & Hd1 & _); [done|].
  destruct (deal_spec s1 w1) as (c2 & s2 & w2 & H2 & Hd2 & _);
    [simpl in *; lia|].
  destruct (deal_spec s2 w2) as (c3 & s3 & w3 & H3 & Hd3 & _);
    [simpl in *; lia|].
  destruct (deal_spec s3 w3) as (c4 & s4 & w4 & H4 & Hd4 & _);
    [simpl in *; lia|].
  exists c1, c2, c3, c4. eexists _, w4.
  split; [by apply (dealInitialCards_run g w c1 s1 w1 c2 s2 w2 c3 s3 w3)|].
  split; [cbn [Shoe.dealMany]; by rewrite H1, H2, H3, H4|].
  split; [done|]. split; [done|]. split; [done|]. simpl.
  pose proof (deal_records_what_it_returns
                (Shoe.startRound (Blackjack.shoe g)) w) as R1.
  pose proof (deal_records_what_it_returns s1 w1) as R2.
  pose proof (deal_records_what_it_returns s2 w2) as R3.
  pose proof (deal_records_what_it_returns s3 w3) as R4.
  rewrite H1 in R1. rewrite H2 in R2. rewrite H3 in R3. rewrite H4 in R4.
  rewrite R4, R3, R2, R1. done.
Qed.

Lemma dealInitialCards_two_each_witness :
  let g := tableWith [handOf [Card.make Spades Ten 10]] true in
  1 ≤ Shoe.numberOfDecks (Blackjack.shoe g)
  ∧ ∃ g' w', Blackjack.dealInitialCards g world0 = (Return tt, g', w')
             ∧ length (Blackjack.held g') = 4.
Proof.
  intros g. split; [simpl; lia|].
  destruct (dealInitialCards_two_each g world0)
    as (c1 & c2 & c3 & c4 & g' & w' & Hrun & _ & Hplayer & Hdealer & _);
    [simpl; lia|].
  exists g', w'. split; [done|].
  unfold Blackjack.held. by rewrite Hplayer, Hdealer.
Defined.

(** From a shoe whose four top cards have distinct ids the initial deal is
    Player, Dealer, Player, Dealer from the top down, and it touches nothing
    but those four cards. *)
Theorem dealInitialCards_order g w rest a b c d :
  Shoe.cards (Blackjack.shoe g) = rest ++ [d; c; b; a] →
  NoDup (Card.id <$> [d; c; b; a]) →
  ∃ g',
    Blackjack.dealInitialCards g w = (Return tt, g', w)
    ∧ Blackjack.playerHands g' = [handOf [a; c]]
    ∧ Blackjack.dealerHand g' = handOf [b; d]
    ∧ Shoe.cards (Blackjack.shoe g') = rest
    ∧ Shoe.discardPile (Blackjack.shoe g')
      = Shoe.discardPile (Blackjack.shoe g).
Proof.
  intros Hcards Hnodup.
  destruct (dealMany_fresh [d; c; b; a] rest
              (Shoe.startRound (Blackjack.shoe g)) w ∅)
    as [dealt Hrun]; try done.
  cbn [length Shoe.dealMany] in Hrun.
  destruct (Shoe.deal (Shoe.startRound _) w) as [[r1 s1] w1] eqn:H1.
  destruct (Shoe.deal s1 w1) as [[r2 s2] w2] eqn:H2.
  destruct (Shoe.deal s2 w2) as [[r3 s3] w3] eqn:H3.
  destruct (Shoe.deal s3 w3) as [[r4 s4] w4] eqn:H4.
  injection Hrun as -> -> -> -> -> ->.
  eexists. split.
  { exact (dealInitialCards_run g w a s1 w1 b s2 w2 c s3 w3 d _ w
             H1 H2 H3 H4). }
  done.
Qed.

Lemma dealInitialCards_order_witness :
  let g := tableWith [] true in
  let rest := [Card.make Hearts Two 40; Card.make Clubs Five 41;
               Card.make Diamonds King 42] in
  let g4 := Blackjack.setShoe
              (Shoe.setCards
                 (rest ++ [Card.make Spades Four 4; Card.make Spades Three 3;
                           Card.make Spades Two 2; Card.make Spades Ace 1])
                 (Blackjack.shoe g)) g in
  NoDup [4; 3; 2; 1]
  ∧ ∃ g', Blackjack.dealInitialCards g4 world0 = (Return tt, g', world0)
          ∧ Blackjack.playerHands g'
            = [handOf [Card.make Spades Ace 1; Card.make Spades Three 3]].
Proof.
  intros g rest g4.
  assert (NoDup [4; 3; 2; 1]) as Hnodup
    by (eapply bool_decide_eq_true; reflexivity).
  split; [exact Hnodup|].
  destruct (dealInitialCards_order g4 world0 rest
              (Card.make Spades Ace 1) (Card.make Spades Two 2)
              (Card.make Spades Three 3) (Card.make Spades Four 4))
    as (g' & Hrun & Hplayer & _); [reflexivity | exact Hnodup |].
  by exists g'.
Defined.

(** [hit] on an index that names no hand throws a [TypeError], but only
    after it has drawn: the shoe has moved on by one card, and the card is
    in no hand. *)
Theorem hit_without_hand_loses_a_card g w i :
  Blackjack.playerHands g !! i = None →
  1 ≤ Shoe.numberOfDecks (Blackjack.shoe g) →
  ∃ c s' w',
    Shoe.deal (Blackjack.shoe g) w = (Some c, s', w')
    ∧ Blackjack.hit i g w = (Throw TypeError, Blackjack.setShoe s' g, w').
Proof.
  intros Hhand Hdecks.
  destruct (deal_spec (Blackjack.shoe g) w Hdecks) as (c & s' & w' & Hdeal & _).
  exists c, s', w'. split; [done|].
  unfold Blackjack.hit. run_bind.
  rewrite (dealCard_Some _ _ _ _ _ Hdeal).
  unfold Blackjack.theHand. simpl. by rewrite Hhand.
Qed.

Lemma hit_without_hand_loses_a_card_witness :
  let g := tableWith [Hand.new] true in
  Blackjack.playerHands g !! 3 = None
  ∧ 1 ≤ Shoe.numberOfDecks (Blackjack.shoe g)
  ∧ ∃ s' w',
      Blackjack.hit 3 g world0 = (Throw TypeError, Blackjack.setShoe s' g, w')
      ∧ length (Shoe.cards s') = 2.
Proof.
  intros g. split; [reflexivity|]. split; [simpl; lia|].
  destruct (hit_without_hand_loses_a_card g world0 3)
    as (c & s' & w' & Hdeal & Hhit); [reflexivity | simpl; lia |].
  exists s', w'. split; [done|].
  vm_compute in Hdeal. by injection Hdeal as <- <- <-.
Defined.

End Rounds.

(** ** The hand index *)

Section HandIndex.

Implicit Types g : Blackjack.t.
Implicit Types w : World.

Lemma keeps_ret {A} P (a : A) : keeps P (Blackjack.ret a).
Proof. by intros g w. Qed.

Lemma keeps_throw {A} P e : keeps P (@Blackjack.throw A e).
Proof. by intros g w. Qed.

Lemma keeps_bind {A B} P (m : Blackjack.M A) (k : A → Blackjack.M B) :
  keeps P m → (∀ a, keeps P (k a)) → keeps P (m ≫= k).
Proof.
  intros Hm Hk g w HP. unfold mbind, Blackjack.M_bind.
  specialize (Hm g w HP).
  destruct (m g w) as [[[a|e] g1] w1]; simpl in *; [|done].
  by apply Hk.
Qed.

Lemma keeps_modify P (f : Blackjack.t → Blackjack.t) :
  (∀ g, P g → P (f g)) → keeps P (Blackjack.modify f).
Proof. intros Hf g w HP. by apply Hf. Qed.

Lemma keeps_this P : keeps P Blackjack.this.
Proof. by intros g w. Qed.

Lemma keeps_theHand P i : keeps P (Blackjack.theHand i).
Proof. intros g w HP. unfold Blackjack.theHand. by destruct (_ !! i). Qed.

Lemma keeps_putHand i h : keeps validTable (Blackjack.putHand i h).
Proof.
  apply keeps_modify. intros g. unfold validTable. simpl.
  by rewrite length_insert.
Qed.

Lemma keeps_dealCard : keeps validTable Blackjack.dealCard.
Proof.
  intros g w HP. unfold Blackjack.dealCard.
  by destruct (Shoe.deal _ _) as [[[c|] s] w1].
Qed.

Lemma keeps_endHand i : keeps validTable (Blackjack.endHand i).
Proof.
  intros g w. unfold Blackjack.endHand, validTable.
  destruct (Nat.ltb_spec i (length (Blackjack.playerHands g) - 1));
    simpl; lia.
Qed.

Lemma keeps_setDealerHand (f : Blackjack.t → Hand.t) :
  keeps validTable (Blackjack.modify (λ g, Blackjack.setDealerHand (f g) g)).
Proof. by apply keeps_modify. Qed.

Ltac keeps_step :=
  first
    [ apply keeps_bind; [|intros ?]
    | apply keeps_ret
    | apply keeps_throw
    | apply keeps_this
    | apply keeps_theHand
    | apply keeps_putHand
    | apply keeps_dealCard
    | apply keeps_endHand
    | apply keeps_setDealerHand
    | match goal with
      | |- keeps _ (if ?b then _ else _) => destruct b
      | |- keeps _ (match ?x with _ => _ end) => destruct x
      end ].

Lemma keeps_hit i : keeps validTable (Blackjack.hit i).
Proof. unfold Blackjack.hit. repeat keeps_step. Qed.

Lemma keeps_stand i : keeps validTable (Blackjack.stand i).
Proof. unfold Blackjack.stand. repeat keeps_step. Qed.

Lemma keeps_surrender i : keeps validTable (Blackjack.surrender i).
Proof. unfold Blackjack.surrender. repeat keeps_step. Qed.

Lemma keeps_double i : keeps validTable (Blackjack.double i).
Proof.
  unfold Blackjack.double. cbv zeta.
  repeat first [apply keeps_hit | apply keeps_stand | keeps_step].
Qed.

Lemma keeps_split i : keeps validTable (Blackjack.split i).
Proof.
  unfold Blackjack.split. cbv zeta. repeat keeps_step.
  apply keeps_modify. intros g. unfold validTable, splice_in. simpl.
  rewrite length_app, length_take. simpl. rewrite length_drop. lia.
Qed.

Lemma keeps_dealInitialCards : keeps validTable Blackjack.dealInitialCards.
Proof.
  unfold Blackjack.dealInitialCards.
  apply keeps_bind; [by apply keeps_modify|intros _].
  apply keeps_bind;
    [apply keeps_modify; intros g _; unfold validTable; simpl; lia|intros _].
  repeat keeps_step.
Qed.

Lemma keeps_placeBet a : keeps validTable (Blackjack.placeBet a).
Proof. unfold Blackjack.placeBet. repeat keeps_step. Qed.

Lemma keeps_dealerPlay : keeps validTable Blackjack.dealerPlay.
Proof. unfold Blackjack.dealerPlay. repeat keeps_step. Qed.

Lemma keeps_settleAllHands : keeps validTable Blackjack.settleAllHands.
Proof.
  apply keeps_modify. intros g _. unfold validTable. simpl. lia.
Qed.

Lemma perform_valid a g w :
  validTable g → validTable (Table.perform a (g, w)).1.
Proof.
  assert (∀ A (m : Blackjack.M A), keeps validTable m →
            validTable g → validTable (Table.after (m g w)).1) as Hafter.
  { intros A m Hm Hg. specialize (Hm g w Hg).
    by destruct (m g w) as [[r g1] w1]. }
  intros Hg. destruct a; unfold Table.perform; apply Hafter;
    auto using keeps_hit, keeps_stand, keeps_surrender, keeps_double,
      keeps_split, keeps_dealInitialCards, keeps_placeBet, keeps_dealerPlay,
      keeps_settleAllHands.
Qed.


End HandIndex.

(** ** Conservation of cards under the whole interface *)

Section Accounting.

Local Arguments Nat.mul : simpl never.

Implicit Types g : Blackjack.t.
Implicit Types w : World.

Ltac run_bind := unfold mbind, Blackjack.M_bind; cbn beta iota.

Lemma held_same_cards (hs : list Hand.t) i h h' :
  hs !! i = Some h →
  Hand.cards h' = Hand.cards h →
  Hand.cards <$> <[i:=h']> hs = Hand.cards <$> hs.
Proof.
  intros Hh Hcards. rewrite list_fmap_insert, Hcards.
  apply list_insert_id. by rewrite list_lookup_fmap, Hh.
Qed.

Lemma held_one_more (hs : list Hand.t) i h h' c :
  hs !! i = Some h →
  Hand.cards h' = Hand.cards h ++ [c] →
  concat (Hand.cards <$> <[i:=h']> hs) ≡ₚ concat (Hand.cards <$> hs) ++ [c].
Proof.
  intros Hh Hcards. rewrite <- (held_after_addCard hs c i h Hh).
  by rewrite !list_fmap_insert, Hcards.
Qed.

Lemma held_split (hs : list Hand.t) i h h1 h2 a b c1 c2 :
  hs !! i = Some h →
  Hand.cards h = [a; b] →
  Hand.cards h1 = [a; c2] →
  Hand.cards h2 = [b; c1] →
  concat (Hand.cards <$> (take i hs ++ h1 :: h2 :: drop (S i) hs))
    ≡ₚ concat (Hand.cards <$> hs) ++ [c1; c2].
Proof.
  intros Hh Hc Hc1 Hc2.
  rewrite <- (take_drop_middle hs i h Hh) at 3.
  rewrite !fmap_app, !fmap_cons, !concat_app, !concat_cons, Hc, Hc1, Hc2.
  rewrite <- !app_assoc. apply Permutation_app_head. simpl.
  apply perm_skip.
  rewrite (Permutation_app_comm _ [c1; c2]). simpl.
  rewrite perm_swap. apply perm_skip. rewrite perm_swap. by apply perm_skip.
Qed.

Variables (D base : nat).
Hypothesis D_pos : 1 ≤ D.

Lemma accounted_same g w g' w' :
  accounted D base (g, w) →
  Blackjack.pool g' ≡ₚ Blackjack.pool g →
  nextId w' = nextId w →
  Shoe.numberOfDecks (Blackjack.shoe g')
  = Shoe.numberOfDecks (Blackjack.shoe g) →
  validTable g' →
  accounted D base (g', w').
Proof.
  intros (k & Hpool & Hnext & Hdecks & _) Hsame Hw Hd Hvalid.
  exists k. unfold conserved. simpl in *.
  rewrite Hsame, Hw, Hd. done.
Qed.

(** One more card dealt from the shoe into the hands. *)
Lemma accounted_deal g w c s' w' g' :
  accounted D base (g, w) →
  Shoe.deal (Blackjack.shoe g) w = (Some c, s', w') →
  Blackjack.shoe g' = s' →
  Blackjack.held g' ≡ₚ Blackjack.held g ++ [c] →
  validTable g' →
  accounted D base (g', w').
Proof.
  intros (k & Hpool & Hnext & Hdecks & _) Hdeal Hshoe Hheld Hvalid.
  simpl in *. unfold Blackjack.pool in *.
  destruct (deal_conserved D base D_pos k (Blackjack.shoe g) w c s' w'
              (Blackjack.held g) (Blackjack.held g'))
    as (Hpool' & Hnext' & Hdecks'); try done.
  eexists. unfold conserved, Blackjack.pool. simpl. rewrite Hshoe. done.
Qed.

Lemma perform_accounted a g w :
  accounted D base (g, w) →
  Table.careful a g = true →
  accounted D base (Table.perform a (g, w)).
Proof.
  intros Hacc Hcareful.
  assert (validTable g ∧ Shoe.numberOfDecks (Blackjack.shoe g) = D)
    as [Hvalid Hdecks] by (by destruct Hacc as (k & _ & _ & ? & ?)).
  pose proof (perform_valid a g w Hvalid) as Hvalid'.
  assert (∀ i, (∃ hand, Blackjack.playerHands g !! i = Some hand)
               ∨ Blackjack.playerHands g !! i = None) as Hlookup
    by (intros i; destruct (_ !! i); eauto).
  destruct a as [|amount|i|i|i|i|i| |]; unfold Table.perform in *.
  - (* dealInitialCards *)
    simpl in Hcareful. apply Nat.eqb_eq, nil_length_inv in Hcareful.
    destruct (deal_spec (Shoe.startRound (Blackjack.shoe g)) w)
      as (c1 & s1 & w1 & H1 & Hd1 & _); [simpl; lia|].
    destruct (deal_spec s1 w1) as (c2 & s2 & w2 & H2 & Hd2 & _);
      [simpl in *; lia|].
    destruct (deal_spec s2 w2) as (c3 & s3 & w3 & H3 & Hd3 & _);
      [simpl in *; lia|].
    destruct (deal_spec s3 w3) as (c4 & s4 & w4 & H4 & Hd4 & _);
      [simpl in *; lia|].
    rewrite (dealInitialCards_run g w c1 s1 w1 c2 s2 w2 c3 s3 w3 c4 s4 w4)
      in * by done.
    destruct Hacc as (k & Hpool & Hnext & _). simpl in *.
    unfold Blackjack.pool in Hpool. rewrite Hcareful in Hpool.
    destruct (deal_conserved D base D_pos k
                (Shoe.startRound (Blackjack.shoe g)) w c1 s1 w1 [] [c1])
      as (Hp1 & Hn1 & Hk1); try done.
    set (k1 := k + _) in Hp1, Hn1.
    destruct (deal_conserved D base D_pos k1 s1 w1 c2 s2 w2 [c1] [c2; c1])
      as (Hp2 & Hn2 & Hk2); try done.
    { apply perm_swap. }
    set (k2 := k1 + _) in Hp2, Hn2.
    destruct (deal_conserved D base D_pos k2 s2 w2 c3 s3 w3
                [c2; c1] [c2; c1; c3]) as (Hp3 & Hn3 & Hk3); try done.
    set (k3 := k2 + _) in Hp3, Hn3.
    destruct (deal_conserved D base D_pos k3 s3 w3 c4 s4 w4
                [c2; c1; c3] [c2; c4; c1; c3]) as (Hp4 & Hn4 & Hk4); try done.
    { apply perm_skip. apply (Permutation_cons_append [_; _]). }
    eexists. unfold conserved, Blackjack.pool, Blackjack.held. simpl.
    split; [exact Hp4|]. done.
  - (* placeBet *)
    unfold Blackjack.placeBet, Blackjack.theHand, Blackjack.putHand,
      Blackjack.modify in *. run_bind. run_bind.
    destruct (Blackjack.playerHands g !! 0) as [hand|] eqn:Hhand; [|done].
    simpl in *. apply (accounted_same g w); try done.
    + unfold Blackjack.pool, Blackjack.held. simpl.
      by erewrite held_same_cards.
    + unfold validTable in *. simpl. by rewrite length_insert.
  - (* hit *)
    assert (∃ hand, Blackjack.playerHands g !! Table.indexOf i g = Some hand)
      as [hand Hhand].
    { apply lookup_lt_is_Some_2. destruct i as [i0|]; simpl in *;
        [by apply Nat.ltb_lt | exact Hvalid]. }
    destruct (deal_spec (Blackjack.shoe g) w) as (c & s' & w' & Hdeal & _);
      [lia|].
    rewrite (hit_run g w _ hand c s' w' Hhand Hdeal) in *. simpl in *.
    apply (accounted_deal g w c s' w'); try done.
    unfold Blackjack.held. simpl.
    rewrite (held_one_more _ _ hand _ c Hhand) by done.
    by rewrite app_assoc.
  - (* stand *)
    destruct (Hlookup (Table.indexOf i g)) as [[hand Hhand]|Hnone].
    + rewrite (stand_run g w _ hand Hhand) in *. simpl in *.
      apply (accounted_same g w); try done.
      unfold Blackjack.pool, Blackjack.held. simpl.
      by erewrite held_same_cards.
    + unfold Blackjack.stand, Blackjack.theHand in *. run_bind.
      by rewrite Hnone.
  - (* surrender *)
    destruct (Hlookup (Table.indexOf i g)) as [[hand Hhand]|Hnone].
    + rewrite (surrender_run g w _ hand Hhand) in *.
      destruct (negb _); [done|]. destruct (_ <? _); [done|]. simpl in *.
      apply (accounted_same g w); try done.
      unfold Blackjack.pool, Blackjack.held. simpl.
      by erewrite held_same_cards.
    + unfold Blackjack.surrender, Blackjack.this, Blackjack.theHand in *.
      run_bind. destruct (negb _); [done|]. run_bind. by rewrite Hnone.
  - (* double *)
    destruct (Hlookup (Table.indexOf i g)) as [[hand Hhand]|Hnone].
    + destruct (decide (length (Hand.cards hand) = 2)) as [Hlen|Hlen].
      * destruct (deal_spec (Blackjack.shoe g) w)
          as (c & s' & w' & Hdeal & _); [lia|].
        rewrite (double_run g w _ hand c s' w' Hhand Hlen Hdeal) in *.
        simpl in *. apply (accounted_deal g w c s' w'); try done.
        unfold Blackjack.held. simpl.
        rewrite (held_one_more _ _ hand _ c Hhand) by done.
        by rewrite app_assoc.
      * unfold Blackjack.double in *. run_bind.
        rewrite (theHand_Some _ hand) by done.
        by destruct (Nat.eqb_spec (length (Hand.cards hand)) 2).
    + unfold Blackjack.double, Blackjack.theHand in *. run_bind.
      by rewrite Hnone.
  - (* split *)
    destruct (Hlookup (Table.indexOf i g)) as [[hand Hhand]|Hnone].
    + destruct (Hand.cards hand) as [|a [|b [|c0 cs]]] eqn:Hcards;
        try (unfold Blackjack.split in *; run_bind;
             rewrite (theHand_Some _ hand) by done; by rewrite Hcards).
      destruct (Nat.eqb_spec (Card.getValue a) (Card.getValue b))
        as [Hvalue|Hvalue].
      * destruct (deal_spec (Blackjack.shoe g) w)
          as (c1 & s1 & w1 & H1 & Hd1 & _); [lia|].
        destruct (deal_spec s1 w1) as (c2 & s2 & w2 & H2 & Hd2 & _); [lia|].
        rewrite (split_run g w _ hand a b c1 s1 w1 c2 s2 w2) in * by done.
        destruct Hacc as (k & Hpool & Hnext & _). simpl in *.
        unfold Blackjack.pool in Hpool.
        destruct (deal_conserved D base D_pos k (Blackjack.shoe g) w c1 s1 w1
                    (Blackjack.held g) (Blackjack.held g ++ [c1]))
          as (Hp1 & Hn1 & Hk1); try done.
        set (k1 := k + _) in Hp1, Hn1.
        edestruct (deal_conserved D base D_pos k1 s1 w1 c2 s2 w2
                     (Blackjack.held g ++ [c1])) as (Hp2 & Hn2 & Hk2);
          [done..| |].
        2:{ eexists. unfold conserved, Blackjack.pool. simpl.
            split; [exact Hp2|]. done. }
        unfold Blackjack.held. simpl.
        rewrite (held_split _ _ hand _ _ a b c1 c2 Hhand Hcards) by done.
        by rewrite <- !app_assoc.
      * unfold Blackjack.split in *. run_bind.
        rewrite (theHand_Some _ hand) by done. rewrite Hcards.
        by destruct (Nat.eqb_spec (Card.getValue a) (Card.getValue b)).
    + unfold Blackjack.split, Blackjack.theHand in *. run_bind.
      by rewrite Hnone.
  - (* dealerPlay *)
    destruct (deal_spec (Blackjack.shoe g) w) as (c & s' & w' & Hdeal & _);
      [lia|].
    unfold Blackjack.dealerPlay, Blackjack.modify in *.
    unfold mbind, Blackjack.M_bind in *.
    rewrite (dealCard_Some _ _ _ _ _ Hdeal) in *. simpl in *.
    apply (accounted_deal g w c s' w'); try done.
    unfold Blackjack.held. simpl. rewrite <- !app_assoc.
    apply Permutation_app_head, Permutation_app_comm.
  - (* settleAllHands *)
    simpl in *. apply (accounted_same g w); try done.
    + unfold Blackjack.pool, Blackjack.held. simpl.
      rewrite discardHands_spec. simpl.
      by rewrite !app_nil_r, <- !app_assoc.
    + by rewrite discardHands_spec.
Qed.

End Accounting.

Section Ledger.

Local Arguments Nat.mul : simpl never.

Lemma play_accounted D base (HD : 1 ≤ D) acts : ∀ st,
  accounted D base st →
  Table.allCareful acts st = true →
  accounted D base (Table.play acts st).
Proof.
  induction acts as [|a acts IH]; intros [g w] Hacc Hcareful; [done|].
  simpl in Hcareful. apply andb_true_iff in Hcareful as [Ha Hacts].
  simpl. apply IH; [|done]. by apply perform_accounted.
Qed.

(** Build a table on [D >= 1] decks and call the controller's methods in
    any order and with any arguments, as long as no [hit] names a missing
    hand and no [dealInitialCards] comes while the hands still hold cards.
    Then no card is ever lost or doubled: the shoe, the discard pile and the
    hands together hold exactly the cards created since the table was
    built, each once, and their number is a multiple of [52 * D]. *)
Theorem every_card_accounted_for D s17 surrenderOk startingChips w acts :
  1 ≤ D →
  Table.allCareful acts (Blackjack.new D s17 surrenderOk startingChips w)
  = true →
  let st := Table.play acts (Blackjack.new D s17 surrenderOk startingChips w) in
  NoDup (Card.id <$> Blackjack.pool st.1)
  ∧ Card.id <$> Blackjack.pool st.1
    ≡ₚ seq (nextId w) (nextId st.2 - nextId w)
  ∧ ∃ k, length (Blackjack.pool st.1) = 52 * D * k.
Proof.
  intros HD Hcareful st.
  destruct (play_accounted D (nextId w) HD acts
              (Blackjack.new D s17 surrenderOk startingChips w))
    as (k & Hpool & Hnext & _); [|done|].
  { exists 1. apply new_conserved. }
  fold st in Hpool, Hnext.
  replace (nextId st.2 - nextId w) with (52 * D * k) by lia.
  split; [rewrite Hpool; apply NoDup_seq|]. split; [done|].
  exists k. apply Permutation_length in Hpool.
  by rewrite length_fmap, length_seq in Hpool.
Qed.

Lemma every_card_accounted_for_witness :
  let acts := [Table.PlaceBet 10; Table.DealInitialCards; Table.Split None;
               Table.Hit None; Table.Stand None; Table.Double (Some 1);
               Table.Surrender (Some 7); Table.DealerPlay;
               Table.SettleAllHands; Table.DealInitialCards;
               Table.Hit (Some 0)] in
  1 ≤ 1
  ∧ Table.allCareful acts (Blackjack.new 1 true true 1000%Z world0) = true
  ∧ NoDup (Card.id <$>
             Blackjack.pool
               (Table.play acts (Blackjack.new 1 true true 1000%Z world0)).1).
Proof.
  intros acts. split; [lia|].
  assert (Table.allCareful acts (Blackjack.new 1 true true 1000%Z world0)
          = true) as Hcareful by (by vm_compute).
  split; [exact Hcareful|].
  apply (every_card_accounted_for 1 true true 1000%Z world0 acts);
    [lia | exact Hcareful].
Defined.

End Ledger.

(** * Properties of the driver's decisions *)

Section Driver.

Implicit Types g : Blackjack.t.
Implicit Types w : World.

Ltac run_bind := unfold mbind, Blackjack.M_bind; cbn beta iota.

Lemma shouldDealerHit_score g :
  (Blackjack.shouldDealerHit g = true →
     Hand.getScore (Blackjack.dealerHand g) ≤ 17)
  ∧ (Blackjack.shouldDealerHit g = false →
     17 ≤ Hand.getScore (Blackjack.dealerHand g)).
Proof.
  unfold Blackjack.shouldDealerHit.
  destruct (Nat.ltb_spec (Hand.getScore (Blackjack.dealerHand g)) 17).
  - split; [lia|done].
  - destruct (Nat.eqb_spec (Hand.getScore (Blackjack.dealerHand g)) 17).
    + split; lia.
    + split; [done|lia].
Qed.

(** [determineGameOutcome] reads the table and changes nothing. *)
Lemma determineGameOutcome_reads g w :
  ∃ r, UI.determineGameOutcome g w = (r, g, w).
Proof.
  unfold UI.determineGameOutcome, Blackjack.this, Blackjack.theHand,
    Blackjack.ret. run_bind. run_bind.
  destruct (_ !! _) as [hand|]; [|by eexists].
  repeat (match goal with |- context [if ?b then _ else _] => destruct b end);
    by eexists.
Qed.

Lemma dealer_turn_bounded m : ∀ g w fuel,
  1 ≤ Shoe.numberOfDecks (Blackjack.shoe g) →
  18 - hardTotal (Hand.cards (Blackjack.dealerHand g)) ≤ m →
  m ≤ fuel →
  ∃ r g' w' drawn,
    UI.executeDealerPlay fuel g w = UI.Decided r g' w'
    ∧ Hand.cards (Blackjack.dealerHand g')
      = Hand.cards (Blackjack.dealerHand g) ++ drawn
    ∧ (drawn ≠ [] →
       hardTotal (Hand.cards (Blackjack.dealerHand g)) + length drawn ≤ 18)
    ∧ Blackjack.playerHands g' = Blackjack.playerHands g
    ∧ Blackjack.shouldDealerHit g' = false.
Proof.
  induction m as [|m IH]; intros g w fuel Hdecks Hm Hfuel.
  - (* the dealer stands already *)
    assert (Blackjack.shouldDealerHit g = false) as Hstand.
    { destruct (Blackjack.shouldDealerHit g) eqn:Hhit; [|done].
      apply shouldDealerHit_score in Hhit.
      pose proof (getScore_hardTotal (Blackjack.dealerHand g)) as [? _]. lia. }
    destruct (determineGameOutcome_reads g w) as [r Hr].
    exists r, g, w, []. destruct fuel; simpl; rewrite Hstand, Hr;
      rewrite app_nil_r; done.
  - destruct (Blackjack.shouldDealerHit g) eqn:Hhit.
    + destruct fuel as [|fuel]; [lia|].
      destruct (deal_spec (Blackjack.shoe g) w Hdecks)
        as (c & s' & w' & Hdeal & Hdecks' & _).
      assert (Blackjack.dealerPlay g w
              = (Return c,
                 Blackjack.setDealerHand
                   (Hand.addCard c (Blackjack.dealerHand g))
                   (Blackjack.setShoe s' g), w')) as Hplay.
      { unfold Blackjack.dealerPlay, Blackjack.modify. run_bind.
        by rewrite (dealCard_Some _ _ _ _ _ Hdeal). }
      pose proof (hardTotal_snoc (Hand.cards (Blackjack.dealerHand g)) c)
        as Hgrow.
      destruct (IH (Blackjack.setDealerHand
                      (Hand.addCard c (Blackjack.dealerHand g))
                      (Blackjack.setShoe s' g)) w' fuel)
        as (r & g' & w'' & drawn & Hrun & Hcards & Hbound & Hplayers & Hend).
      * simpl. lia.
      * simpl. lia.
      * lia.
      * exists r, g', w'', (c :: drawn).
        cbn [UI.executeDealerPlay]. rewrite Hhit, Hplay.
        split; [done|]. simpl in *.
        split; [by rewrite Hcards, <- app_assoc|].
        split; [|done]. intros _.
        apply shouldDealerHit_score in Hhit.
        pose proof (getScore_hardTotal (Blackjack.dealerHand g)) as [? _].
        destruct drawn as [|c' drawn]; [simpl; lia|].
        specialize (Hbound ltac:(done)). simpl in *. lia.
    + destruct (determineGameOutcome_reads g w) as [r Hr].
      exists r, g, w, []. destruct fuel; simpl; rewrite Hhit, Hr;
        rewrite app_nil_r; done.
Qed.

(** The dealer's turn always ends.  On a shoe of at least one deck, within
    18 draws the dealer stops drawing and the outcome is determined: the
    dealer then holds 17 or more, has only added cards to the dealer hand,
    and the player hands are as they were. *)
Theorem dealer_turn_ends g w fuel :
  1 ≤ Shoe.numberOfDecks (Blackjack.shoe g) →
  18 ≤ fuel →
  ∃ r g' w' drawn,
    UI.executeDealerPlay fuel g w = UI.Decided r g' w'
    ∧ Hand.cards (Blackjack.dealerHand g')
      = Hand.cards (Blackjack.dealerHand g) ++ drawn
    ∧ length drawn ≤ 18
    ∧ Blackjack.playerHands g' = Blackjack.playerHands g
    ∧ 17 ≤ Hand.getScore (Blackjack.dealerHand g').
Proof.
  intros Hdecks Hfuel.
  destruct (dealer_turn_bounded 18 g w fuel Hdecks)
    as (r & g' & w' & drawn & Hrun & Hcards & Hbound & Hplayers & Hend);
    [lia..|].
  exists r, g', w', drawn. split; [done|]. split; [done|].
  split; [|split; [done|by apply shouldDealerHit_score]].
  destruct drawn as [|c drawn]; [simpl; lia|].
  specialize (Hbound ltac:(done)). lia.
Qed.

Lemma dealer_turn_ends_witness :
  let g := tableWith [handOf [Card.make Spades Ten 10]] true in
  1 ≤ Shoe.numberOfDecks (Blackjack.shoe g)
  ∧ 18 ≤ 20
  ∧ ∃ r g' w', UI.executeDealerPlay 20 g world0 = UI.Decided r g' w'
               ∧ 17 ≤ Hand.getScore (Blackjack.dealerHand g').
Proof.
  intros g. split; [simpl; lia|]. split; [lia|].
  destruct (dealer_turn_ends g world0 20)
    as (r & g' & w' & drawn & Hrun & _ & _ & _ & Hscore);
    [simpl; lia | lia |].
  by exists r, g', w'.
Defined.

End Driver.

Section Outcomes.

Implicit Types g : Blackjack.t.
Implicit Types w : World.

Ltac run_bind := unfold mbind, Blackjack.M_bind; cbn beta iota.

(** How a round is decided for the current hand [p] against the dealer
    hand.  A busted player has lost whatever the dealer holds.  Otherwise a
    busted dealer pays a plain win, even to a blackjack.  Otherwise a
    blackjack on one side only decides, even against a 21 of more cards.
    Otherwise the higher score wins and equal scores push. *)
Theorem determineGameOutcome_rules g w p :
  Blackjack.playerHands g !! Blackjack.currentHandIndex g = Some p →
  let d := Blackjack.dealerHand g in
  ∃ r,
    UI.determineGameOutcome g w = (Return r, g, w)
    ∧ (r = UI.Busted ↔ Hand.isBusted p = true)
    ∧ (r = UI.BlackjackWin
       ↔ Hand.isBusted d = false
         ∧ Hand.isBlackjack p = true ∧ Hand.isBlackjack d = false)
    ∧ (r = UI.Push
       ↔ Hand.isBusted p = false ∧ Hand.isBusted d = false
         ∧ Hand.isBlackjack p = Hand.isBlackjack d
         ∧ Hand.getScore p = Hand.getScore d)
    ∧ (r = UI.Win
       ↔ Hand.isBusted p = false
         ∧ (Hand.isBusted d = true
            ∨ (Hand.isBlackjack p = Hand.isBlackjack d
               ∧ Hand.getScore d < Hand.getScore p)))
    ∧ (r = UI.Lose
       ↔ Hand.isBusted p = false ∧ Hand.isBusted d = false
         ∧ ((Hand.isBlackjack d = true ∧ Hand.isBlackjack p = false)
            ∨ (Hand.isBlackjack p = Hand.isBlackjack d
               ∧ Hand.getScore p < Hand.getScore d))).
Proof.
  intros Hp d.
  assert (Hand.isBlackjack p = true → Hand.isBusted p = false) as Hbjp.
  { unfold Hand.isBlackjack, Hand.isBusted.
    rewrite andb_true_iff, !Nat.eqb_eq, Nat.ltb_ge. lia. }
  assert (Hand.isBlackjack d = true → Hand.getScore d = 21) as Hbjd.
  { unfold Hand.isBlackjack. rewrite andb_true_iff, !Nat.eqb_eq. tauto. }
  assert (Hand.isBlackjack p = true → Hand.getScore p = 21) as Hbjp21.
  { unfold Hand.isBlackjack. rewrite andb_true_iff, !Nat.eqb_eq. tauto. }
  unfold UI.determineGameOutcome, Blackjack.this, Blackjack.ret. run_bind.
  rewrite (theHand_Some _ p) by done. fold d.
  destruct (Hand.isBusted p) eqn:Ebp.
  { eexists. split; [done|]. repeat split; try done; intros; intuition done. }
  destruct (Hand.isBusted d) eqn:Ebd.
  { eexists. split; [done|]. repeat split; try done; intros;
      intuition done. }
  destruct (Hand.isBlackjack p) eqn:Ejp, (Hand.isBlackjack d) eqn:Ejd;
    cbn [andb negb].
  - (* both *)
    rewrite Hbjd, Hbjp21 by done. cbn [Nat.ltb Nat.leb].
    eexists. split; [done|]. repeat split; try done; intros;
      intuition (try done; try lia).
  - eexists. split; [done|]. repeat split; try done; intros;
      intuition (try done; try lia).
  - eexists. split; [done|]. repeat split; try done; intros;
      intuition (try done; try lia).
  - destruct (Nat.ltb_spec (Hand.getScore d) (Hand.getScore p)).
    + eexists. split; [done|]. repeat split; try done; intros;
        intuition (try done; try lia).
    + destruct (Nat.ltb_spec (Hand.getScore p) (Hand.getScore d)).
      * eexists. split; [done|]. repeat split; try done; intros;
          intuition (try done; try lia).
      * eexists. split; [done|]. repeat split; try done; intros;
          intuition (try done; try lia).
Qed.

Lemma determineGameOutcome_rules_witness :
  let natural := handOf [Card.make Spades Ace 1; Card.make Hearts King 2] in
  let g := Blackjack.setDealerHand
             (handOf [Card.make Clubs Seven 3; Card.make Clubs Six 4;
                      Card.make Diamonds Eight 5])
             (tableWith [natural] true) in
  Blackjack.playerHands g !! Blackjack.currentHandIndex g = Some natural
  ∧ UI.determineGameOutcome g world0 = (Return UI.BlackjackWin, g, world0).
Proof.
  intros natural g. split; [reflexivity|].
  destruct (determineGameOutcome_rules g world0 natural)
    as (r & Hrun & _ & Hbj & _); [reflexivity|].
  rewrite Hrun. do 2 f_equal. f_equal. apply Hbj. by vm_compute.
Defined.

(** What the driver offers, the controller accepts: on a shoe of at least
    one deck, every action whose control [computeAndUpdateControls] enables
    returns without throwing when called on the current hand.  With no hand
    at the current index nothing is enabled. *)
Theorem enabled_controls_succeed g w :
  1 ≤ Shoe.numberOfDecks (Blackjack.shoe g) →
  let i := Blackjack.currentHandIndex g in
  let c := UI.computeControls g in
  (UI.canHit c = true → ∃ r g' w', Blackjack.hit i g w = (Return r, g', w'))
  ∧ (UI.canStand c = true →
       ∃ g' w', Blackjack.stand i g w = (Return tt, g', w'))
  ∧ (UI.canDouble c = true →
       ∃ g' w', Blackjack.double i g w = (Return tt, g', w'))
  ∧ (UI.canSurrender c = true →
       ∃ g' w', Blackjack.surrender i g w = (Return tt, g', w'))
  ∧ (UI.canSplit c = true →
       ∃ g' w', Blackjack.split i g w = (Return tt, g', w'))
  ∧ (Blackjack.playerHands g !! i = None →
       c = UI.mkControls false false false false false).
Proof.
  intros Hdecks i c. subst c. unfold UI.computeControls. fold i.
  destruct (Blackjack.playerHands g !! i) as [hand|] eqn:Hhand;
    [|by repeat split].
  destruct (deal_spec (Blackjack.shoe g) w Hdecks)
    as (c1 & s1 & w1 & Hdeal1 & Hdecks1 & _).
  simpl. repeat split; try done.
  - intros _. rewrite (hit_run g w i hand c1 s1 w1 Hhand Hdeal1). eauto.
  - intros _. rewrite (stand_run g w i hand Hhand). eauto.
  - intros Hok. apply andb_true_iff in Hok as [Hok _].
    apply andb_true_iff in Hok as [Hlen _]. apply Nat.eqb_eq in Hlen.
    rewrite (double_run g w i hand c1 s1 w1 Hhand Hlen Hdeal1). eauto.
  - intros Hok. apply andb_true_iff in Hok as [Hok _].
    apply andb_true_iff in Hok as [Hallow Hlen]. apply Nat.eqb_eq in Hlen.
    rewrite (surrender_run g w i hand Hhand), Hallow, Hlen. simpl. eauto.
  - intros Hok.
    destruct (Hand.cards hand) as [|a [|b [|c0 cs]]] eqn:Hcards; try done.
    apply andb_true_iff in Hok as [Hvalue _]. apply Nat.eqb_eq in Hvalue.
    destruct (deal_spec s1 w1) as (c2 & s2 & w2 & Hdeal2 & _); [lia|].
    rewrite (split_run g w i hand a b c1 s1 w1 c2 s2 w2) by done. eauto.
Qed.

Lemma enabled_controls_succeed_witness :
  let g := tableWith
             [handOf [Card.make Spades Eight 10; Card.make Clubs Eight 11]]
             true in
  1 ≤ Shoe.numberOfDecks (Blackjack.shoe g)
  ∧ UI.canSplit (UI.computeControls g) = true
  ∧ ∃ g' w', Blackjack.split (Blackjack.currentHandIndex g) g world0
             = (Return tt, g', w').
Proof.
  intros g. split; [simpl; lia|]. split; [by vm_compute|].
  destruct (enabled_controls_succeed g world0) as (_ & _ & _ & _ & Hsplit & _);
    [simpl; lia|].
  apply Hsplit. by vm_compute.
Defined.



End Outcomes.

(** * When the shoe runs low in mid-round *)

Section Reshuffle.

Implicit Types s : Shoe.t.
Implicit Types w : World.

(** The search loop over cards that were all dealt this round already. *)
Lemma search_all_seen cs : ∀ fuel s dealt,
  length cs < fuel →
  Shoe.cards s = cs →
  Shoe.currentRoundDealt s = Some dealt →
  (∀ c, c ∈ cs → Card.id c ∈ dealt) →
  Shoe.search fuel s
  = (None,
     Shoe.setDiscardPile (Shoe.discardPile s ++ reverse cs) (Shoe.setCards [] s)).
Proof.
  induction cs as [|c cs IH] using rev_ind;
    intros fuel s dealt Hfuel Hcards Hround Hseen.
  - destruct fuel as [|fuel]; [simpl in Hfuel; lia|].
    cbn [Shoe.search]. rewrite Hcards. simpl. rewrite app_nil_r.
    destruct s; simpl in *. by subst.
  - destruct fuel as [|fuel]; [simpl in Hfuel; lia|].
    rewrite length_app in Hfuel. simpl in Hfuel.
    cbn [Shoe.search]. rewrite Hcards, pop_app.
    cbn [Shoe.currentRoundDealt Shoe.setCards]. rewrite Hround.
    rewrite decide_True
      by (apply Hseen; rewrite elem_of_app, list_elem_of_singleton; auto).
    erewrite (IH fuel _ dealt); [|lia|done|done|].
    + rewrite reverse_snoc. simpl. by rewrite <- app_assoc.
    + intros c' Hc'. apply Hseen. rewrite elem_of_app. auto.
Qed.

(** When every card left in [cards] was already dealt this round, [deal]
    sets them all aside, takes the whole discard pile back into [cards]
    with them, shuffles, and deals the top card of that, even if it was
    dealt this round too; the discard pile is left empty and no card is made
    or lost. *)
Theorem deal_reshuffles_when_all_seen s w dealt :
  Shoe.cards s ≠ [] →
  Shoe.currentRoundDealt s = Some dealt →
  (∀ c, c ∈ Shoe.cards s → Card.id c ∈ dealt) →
  ∃ c s' w',
    Shoe.deal s w = (Some c, s', w')
    ∧ Shoe.cards s' ++ [c] ≡ₚ Shoe.discardPile s ++ Shoe.cards s
    ∧ Shoe.discardPile s' = []
    ∧ Shoe.currentRoundDealt s' = Some ({[Card.id c]} ∪ dealt)
    ∧ nextId w' = nextId w.
Proof.
  intros Hne Hround Hseen. unfold Shoe.deal.
  destruct (length (Shoe.cards s)) as [|n] eqn:Hlen.
  { by apply nil_length_inv in Hlen. }
  cbn [Nat.eqb]. rewrite Hlen.
  rewrite (search_all_seen (Shoe.cards s) _ s dealt); try done.
  2:{ rewrite Hlen. pose proof (maxAttempts_enough (S n)). lia. }
  cbn [Shoe.cards Shoe.setCards Shoe.setDiscardPile Shoe.discardPile
       length Nat.eqb].
  assert (length (Shoe.discardPile s ++ reverse (Shoe.cards s)) ≠ 0) as Hd.
  { rewrite length_app, length_reverse. lia. }
  destruct (length (Shoe.discardPile s ++ reverse (Shoe.cards s)))
    as [|m] eqn:Hm; [done|]. cbn [Nat.ltb Nat.leb].
  destruct (Shoe.recycle _ w) as [s3 w3] eqn:Hrec.
  apply recycle_spec in Hrec as (Hp3 & Hs3 & [Hnext _]). simpl in Hp3.
  destruct (pop_nonempty (Shoe.cards s3)) as (rest & c & Hpop & Hc3).
  { intros Hnil. rewrite Hnil in Hp3. apply Permutation_length in Hp3.
    simpl in Hp3. lia. }
  rewrite Hpop.
  assert (Shoe.currentRoundDealt (Shoe.setCards rest s3) = Some dealt) as Hr3
    by (rewrite Hs3; simpl; done).
  rewrite Hr3.
  destruct (Shoe.alertEndOfShoe _ _ w3) as [s6 w6] eqn:Halert.
  pose proof (alertEndOfShoe_record (S n)
                (Shoe.setCurrentRoundDealt (Some ({[Card.id c]} ∪ dealt))
                   (Shoe.setCards rest s3)) w3) as Hrec6.
  rewrite Halert in Hrec6. simpl in Hrec6.
  apply alertEndOfShoe_spec in Halert as (H6c & H6d & _ & H6w).
  exists c, s6, w6. split; [done|].
  rewrite H6c, H6d. simpl.
  split; [by rewrite <- Hc3, Hp3, reverse_Permutation|].
  split; [by rewrite Hs3|]. split; [done|congruence].
Qed.

End Reshuffle.

(** * Bets *)

Section Stakes.

Implicit Types g : Blackjack.t.
Implicit Types w : World.

Variable a : Z.

Local Ltac run_bind := unfold mbind, Blackjack.M_bind; cbn beta iota.

Lemma hoare_ret {A} E (Q : A → Blackjack.t → Prop) x :
  hoare E (Q x) (Blackjack.ret x) Q.
Proof. by intros g w. Qed.

Lemma hoare_throw {A} E e (Q : A → Blackjack.t → Prop) :
  hoare E E (Blackjack.throw e) Q.
Proof. by intros g w. Qed.

Lemma hoare_bind {A B} E P (m : Blackjack.M A) Q (k : A → Blackjack.M B) R :
  hoare E P m Q → (∀ x, hoare E (Q x) (k x) R) → hoare E P (m ≫= k) R.
Proof.
  intros Hm Hk g w HP. unfold mbind, Blackjack.M_bind.
  specialize (Hm g w HP).
  destruct (m g w) as [[[x|e] g1] w1]; [|done]. by apply Hk.
Qed.

Lemma hoare_pure {A} E P (φ : Prop) (m : Blackjack.M A) Q :
  (φ → hoare E P m Q) → hoare E (λ g, P g ∧ φ) m Q.
Proof. intros Hm g w [HP Hφ]. by apply Hm. Qed.

Local Ltac hstep rule :=
  eapply hoare_bind; [rule | intros ?; cbv beta].

Lemma hoare_theHand i :
  hoare (staked a) (staked a) (Blackjack.theHand i)
    (λ h g, staked a g ∧ stakeOf a h).
Proof.
  intros g w Hst. unfold Blackjack.theHand.
  destruct (_ !! i) as [h|] eqn:Hh; [|done].
  split; [done|]. destruct Hst as [_ Hst].
  by apply (Forall_lookup_1 _ _ _ _ Hst Hh).
Qed.

Lemma hoare_putHand i h :
  stakeOf a h →
  hoare (staked a) (staked a) (Blackjack.putHand i h) (λ _ g, staked a g).
Proof.
  intros Hh g w [Hdecks Hst]. split; [done|]. simpl. by apply Forall_insert.
Qed.

Lemma hoare_dealCard :
  hoare (staked a) (staked a) Blackjack.dealCard (λ _ g, staked a g).
Proof.
  intros g w [Hdecks Hst]. unfold Blackjack.dealCard.
  destruct (deal_spec (Blackjack.shoe g) w Hdecks)
    as (c & s' & w' & -> & Hsame & _).
  split; [|done]. simpl. by rewrite Hsame.
Qed.

Lemma hoare_endHand i :
  hoare (staked a) (staked a) (Blackjack.endHand i) (λ _ g, staked a g).
Proof. intros g w Hst. unfold Blackjack.endHand. by destruct (_ <? _). Qed.

Lemma stakeOf_addCard c h : stakeOf a h → stakeOf a (Hand.addCard c h).
Proof.
  intros (Horig & [Hplain|(Hbet & Hdbl & Hlen)]); split; try done.
  - by left.
  - right. simpl. rewrite length_app. simpl. repeat split; try done. lia.
Qed.

(** A hand of two cards has not been doubled. *)
Lemma stakeOf_two_cards h :
  stakeOf a h → length (Hand.cards h) = 2 →
  Hand.bet h = a ∧ Hand.doubled h ≠ Some true.
Proof. intros (_ & [Hplain|(_ & _ & Hlen)]) Htwo; [done|lia]. Qed.

Lemma hoare_hit i :
  hoare (staked a) (staked a) (Blackjack.hit i) (λ _ g, staked a g).
Proof.
  unfold Blackjack.hit.
  hstep ltac:(apply hoare_dealCard).
  hstep ltac:(apply hoare_theHand).
  apply hoare_pure. intros Hh.
  hstep ltac:(apply hoare_putHand; by apply stakeOf_addCard).
  eapply hoare_bind;
    [|intros ?; apply (hoare_ret _ (λ _ g, staked a g))].
  destruct (Hand.isBusted _);
    [apply hoare_endHand | apply (hoare_ret _ (λ _ g, staked a g))].
Qed.

Lemma hoare_stand i :
  hoare (staked a) (staked a) (Blackjack.stand i) (λ _ g, staked a g).
Proof.
  unfold Blackjack.stand.
  hstep ltac:(apply hoare_theHand).
  apply hoare_pure. intros Hh.
  eapply hoare_bind; [apply hoare_putHand|intros ?; apply hoare_endHand].
  done.
Qed.

Lemma hoare_surrender i :
  hoare (staked a) (staked a) (Blackjack.surrender i) (λ _ g, staked a g).
Proof.
  unfold Blackjack.surrender.
  eapply hoare_bind with (Q := λ _ g, staked a g); [by intros g w|intros g0].
  destruct (negb _); [apply hoare_throw|].
  hstep ltac:(apply hoare_theHand).
  apply hoare_pure. intros Hh.
  destruct (_ <? _); [apply hoare_throw|].
  eapply hoare_bind; [apply hoare_putHand|intros ?; apply hoare_endHand].
  done.
Qed.

Lemma hoare_split i :
  hoare (staked a) (staked a) (Blackjack.split i) (λ _ g, staked a g).
Proof.
  unfold Blackjack.split.
  hstep ltac:(apply hoare_theHand).
  apply hoare_pure. intros Hh.
  destruct (Hand.cards x) as [|first [|second [|? ?]]] eqn:Hcards;
    try apply hoare_throw.
  destruct (negb _); [apply hoare_throw|].
  destruct (stakeOf_two_cards x Hh) as [Hbet Hdbl]; [by rewrite Hcards|].
  destruct Hh as [Horig _].
  hstep ltac:(apply hoare_putHand).
  { split; [done|]. by left. }
  cbv zeta.
  hstep ltac:(apply hoare_dealCard).
  hstep ltac:(apply hoare_dealCard).
  hstep ltac:(apply hoare_theHand).
  apply hoare_pure. intros Hh'.
  hstep ltac:(apply hoare_putHand; by apply stakeOf_addCard).
  intros g w [Hdecks Hst]. split; [done|]. simpl.
  unfold splice_in. apply Forall_app.
  split; [by apply Forall_take|].
  apply Forall_cons. split; [|by apply Forall_drop].
  split; simpl.
  - rewrite Horig, Hbet. unfold numberOr. by destruct (a =? 0)%Z.
  - by left.
Qed.

Lemma hoare_dealerPlay :
  hoare (staked a) (staked a) Blackjack.dealerPlay (λ _ g, staked a g).
Proof.
  unfold Blackjack.dealerPlay.
  hstep ltac:(apply hoare_dealCard).
  eapply hoare_bind with (Q := λ _ g, staked a g); [by intros g w|].
  intros ?. apply (hoare_ret _ (λ _ g, staked a g)).
Qed.

(** [double] leaves the stake on a table of at least one deck: the card it
    draws is there, so the hand it doubles ends with three cards. *)
Lemma double_staked i g w :
  staked a g → staked a (Table.after (Blackjack.double i g w)).1.
Proof.
  intros [Hdecks Hst].
  destruct (Blackjack.playerHands g !! i) as [hand|] eqn:Hhand.
  2:{ unfold Blackjack.double, Blackjack.theHand. run_bind.
      by rewrite Hhand. }
  destruct (decide (length (Hand.cards hand) = 2)) as [Hlen|Hlen].
  2:{ unfold Blackjack.double, Blackjack.theHand. run_bind.
      rewrite Hhand. apply Nat.eqb_neq in Hlen. by rewrite Hlen. }
  destruct (deal_spec (Blackjack.shoe g) w Hdecks)
    as (c & s' & w' & Hdeal & Hsame & _).
  rewrite (double_run g w i hand c s' w' Hhand Hlen Hdeal).
  split; simpl; [by rewrite Hsame|].
  apply Forall_insert; [done|].
  pose proof (Forall_lookup_1 _ _ _ _ Hst Hhand) as Hh.
  destruct (stakeOf_two_cards hand Hh Hlen) as [Hbet Hdbl].
  destruct Hh as [Horig _].
  split; simpl.
  - rewrite Horig, Hbet. simpl. by destruct (a =? 0)%Z eqn:Hz; [apply Z.eqb_eq in Hz as ->|].
  - right. rewrite Hbet, length_app, Hlen. done.
Qed.

Lemma hoare_after {A} (m : Blackjack.M A) g w :
  hoare (staked a) (staked a) m (λ _ g, staked a g) →
  staked a g → staked a (Table.after (m g w)).1.
Proof.
  intros Hm Hst. specialize (Hm g w Hst).
  by destruct (m g w) as [[[x|e] g'] w'].
Qed.

Lemma perform_staked act g w :
  playsHand act = true → staked a g → staked a (Table.perform act (g, w)).1.
Proof.
  destruct act; try done; intros _ Hst; unfold Table.perform.
  - by apply hoare_after; [apply hoare_hit|].
  - by apply hoare_after; [apply hoare_stand|].
  - by apply hoare_after; [apply hoare_surrender|].
  - by apply double_staked.
  - by apply hoare_after; [apply hoare_split|].
  - by apply hoare_after; [apply hoare_dealerPlay|].
Qed.

Lemma play_staked acts : ∀ st,
  forallb playsHand acts = true → staked a st.1 →
  staked a (Table.play acts st).1.
Proof.
  induction acts as [|act acts IH]; intros [g w]; [done|].
  simpl. intros [Hact Hacts]%andb_prop Hst.
  apply IH; [done|]. by apply perform_staked.
Qed.

(** A bet placed on a freshly dealt round stays with every hand the round
    comes to hold.  After [dealInitialCards], [placeBet a] and any calls of
    [hit], [stand], [surrender], [double], [split] and [dealerPlay], with
    any hand indices, failed calls included: every player hand has
    [originalBet = a], and its [bet] is [a], or [2a] exactly when it was
    doubled, and a doubled hand holds three cards or more. *)
Theorem stake_follows_every_hand g w acts :
  1 ≤ Shoe.numberOfDecks (Blackjack.shoe g) →
  forallb playsHand acts = true →
  Forall (stakeOf a)
    (Blackjack.playerHands
       (Table.play (Table.DealInitialCards :: Table.PlaceBet a :: acts)
          (g, w)).1).
Proof.
  intros Hdecks Hacts.
  destruct (deal_spec (Shoe.startRound (Blackjack.shoe g)) w)
    as (c1 & s1 & w1 & H1 & Hd1 & _); [done|].
  destruct (deal_spec s1 w1) as (c2 & s2 & w2 & H2 & Hd2 & _);
    [simpl in *; lia|].
  destruct (deal_spec s2 w2) as (c3 & s3 & w3 & H3 & Hd3 & _);
    [simpl in *; lia|].
  destruct (deal_spec s3 w3) as (c4 & s4 & w4 & H4 & Hd4 & _);
    [simpl in *; lia|].
  cbn [Table.play foldl Table.perform].
  rewrite (dealInitialCards_run g w c1 s1 w1 c2 s2 w2 c3 s3 w3 c4 s4 w4)
    by done.
  cbn [Table.after].
  apply play_staked; [done|]. split.
  - simpl in *. lia.
  - simpl. constructor; [|constructor]. split; simpl; [done|by left].
Qed.


End Stakes.

Section StakesInstances.

Lemma stake_follows_every_hand_witness :
  Forall (stakeOf 25)
    (Blackjack.playerHands
       (Table.play
          [Table.DealInitialCards; Table.PlaceBet 25; Table.Double None]
          (tableWith [] true, world0)).1).
Proof.
  by apply (stake_follows_every_hand 25 (tableWith [] true) world0
              [Table.Double None]).
Defined.


End StakesInstances.

Section ReshuffleInstances.

Lemma deal_reshuffles_when_all_seen_witness :
  ∃ c s' w',
    Shoe.deal (Shoe.mk [Card.make Spades Ace 7] [Card.make Hearts Nine 8]
                 1 false false (Some {[7]})) world0
    = (Some c, s', w')
    ∧ Shoe.cards s' ++ [c]
      ≡ₚ [Card.make Hearts Nine 8] ++ [Card.make Spades Ace 7]
    ∧ Shoe.discardPile s' = []
    ∧ Shoe.currentRoundDealt s' = Some ({[Card.id c]} ∪ {[7]})
    ∧ nextId w' = nextId world0.
Proof.
  apply (deal_reshuffles_when_all_seen
           (Shoe.mk [Card.make Spades Ace 7] [Card.make Hearts Nine 8]
              1 false false (Some {[7]})) world0 {[7]}).
  - done.
  - done.
  - intros c ->%list_elem_of_singleton. simpl. set_solver.
Defined.

End ReshuffleInstances.

(** * The player's money *)

Section Money.

Implicit Types g : Blackjack.t.
Implicit Types w : World.

Local Ltac run_bind := unfold mbind, Blackjack.M_bind; cbn beta iota.

Lemma betSum_app hs1 hs2 :
  betSum (hs1 ++ hs2) = (betSum hs1 + betSum hs2)%Z.
Proof. induction hs1 as [|h hs1 IH]; simpl; [done|]. rewrite IH. lia. Qed.


Lemma betSum_take_drop hs i h :
  hs !! i = Some h →
  betSum hs = (betSum (take i hs) + Hand.bet h + betSum (drop (S i) hs))%Z.
Proof.
  intros Hh. rewrite <- (take_drop_middle hs i h Hh) at 1.
  rewrite betSum_app. simpl. lia.
Qed.







End Money.

Section MoneyInstances.


End MoneyInstances.
